(** * Content filters of trafilatura: duplicate detection, language gate,
      structural text filter and content fingerprint.

    A shallow embedding of [src/python/src/filters.py].

    Python [str] values are modelled as lists of code points restricted to
    the Latin-1 range 0..255, one [ascii] per code point, so that [length]
    is Python's [len].  On that range the character tables below are the
    ones of CPython's Unicode database (the classes used by [re]'s [\w] and
    [\W], [str.isspace], [str.lower] and [str.splitlines]). *)

From Stdlib Require Import List String Ascii ZArith NArith Lia Bool Arith.
Import ListNotations.

Set Implicit Arguments.

(** ** Text *)

Definition pystr := list ascii.

Definition py (s : string) : pystr := list_ascii_of_string s.

Definition ord (c : ascii) : N := N_of_ascii c.

Definition in_range (lo hi n : N) : bool := (N.leb lo n && N.leb n hi)%bool.

Fixpoint str_eqb (a b : pystr) : bool :=
  match a, b with
  | [], [] => true
  | x :: a', y :: b' => Ascii.eqb x y && str_eqb a' b'
  | _, _ => false
  end.

(** [re]'s [\w] on a [str] pattern: alphanumeric code points and the
    underscore. *)
Definition is_word (c : ascii) : bool :=
  let n := ord c in
  in_range 48 57 n || in_range 65 90 n || N.eqb n 95 || in_range 97 122 n
  || N.eqb n 170 || in_range 178 179 n || N.eqb n 181 || in_range 185 186 n
  || in_range 188 190 n || in_range 192 214 n || in_range 216 246 n
  || in_range 248 255 n.

(** [str.isspace] on one character. *)
Definition is_space (c : ascii) : bool :=
  let n := ord c in
  in_range 9 13 n || in_range 28 32 n || N.eqb n 133 || N.eqb n 160.

(** Unicode general category Cc (control characters). *)
Definition is_control (c : ascii) : bool :=
  let n := ord c in
  in_range 0 31 n || in_range 127 159 n.

(** [str.lower] on one character (also the case folding of
    [re.IGNORECASE]).  On the range modelled [str.lower] works character
    by character; on other text it does not (a final sigma, a dotted
    capital I), which is why statements on the words of a text speak of
    the lowercased text and not of lowercasing its parts. *)
Definition lower_char (c : ascii) : ascii :=
  let n := ord c in
  if in_range 65 90 n || in_range 192 214 n || in_range 216 222 n
  then ascii_of_N (n + 32)
  else c.

Definition lower (s : pystr) : pystr := map lower_char s.

(** Line boundaries of [str.splitlines]. *)
Definition is_linebreak (c : ascii) : bool :=
  let n := ord c in
  in_range 10 13 n || in_range 28 30 n || N.eqb n 133.

Definition LF : ascii := ascii_of_N 10.
Definition CR : ascii := ascii_of_N 13.

(** [str.isspace]: every character is whitespace and there is at least one. *)
Definition isspace (s : pystr) : bool :=
  match s with
  | [] => false
  | _ => forallb is_space s
  end.

(** [sep.join(parts)]. *)
Fixpoint join (sep : pystr) (parts : list pystr) : pystr :=
  match parts with
  | [] => []
  | [p] => p
  | p :: rest => p ++ sep ++ join sep rest
  end.

(** [str.splitlines]: [cur] is the line being read, in reverse. A line is
    emitted at each boundary ([\r\n] counts as one) and, when non-empty, at
    the end of the text. *)
Fixpoint splitlines_aux (cur : pystr) (s : pystr) : list pystr :=
  match s with
  | [] => match cur with [] => [] | _ => [rev cur] end
  | c :: s' =>
      if is_linebreak c then
        match s' with
        | d :: s'' =>
            if Ascii.eqb c CR && Ascii.eqb d LF
            then rev cur :: splitlines_aux [] s''
            else rev cur :: splitlines_aux [] s'
        | [] => [rev cur]
        end
      else splitlines_aux (c :: cur) s'
  end.

Definition splitlines (s : pystr) : list pystr := splitlines_aux [] s.

(** ** Elements of the document tree

    What the filters observe of an lxml element: its direct text, its tail
    and, through [itertext], the text of its subtree in document order (the
    tails of the descendants included, the element's own tail not). *)

#[warnings="-register-all"]
Inductive Element : Type :=
  mkElement (text tail : option pystr) (children : list Element).

Definition text (e : Element) : option pystr :=
  let 'mkElement t _ _ := e in t.

Definition tail (e : Element) : option pystr :=
  let 'mkElement _ t _ := e in t.

Definition opt_list (o : option pystr) : list pystr :=
  match o with Some s => [s] | None => [] end.

Fixpoint itertext (e : Element) : list pystr :=
  let 'mkElement t _ ch := e in
  opt_list t ++
  (fix walk (l : list Element) : list pystr :=
     match l with
     | [] => []
     | c :: l' => itertext c ++ opt_list (tail c) ++ walk l'
     end) ch.

(** ** The frequency cache *)

Record LRUCache : Type := mkLRU {
  maxsize : nat;
  entries : list (pystr * Z)   (* most recently used first *)
}.

Fixpoint lookup (k : pystr) (l : list (pystr * Z)) : option Z :=
  match l with
  | [] => None
  | (k', v) :: l' => if str_eqb k k' then Some v else lookup k l'
  end.

Fixpoint remove_key (k : pystr) (l : list (pystr * Z)) : list (pystr * Z) :=
  match l with
  | [] => []
  | (k', v) :: l' =>
      if str_eqb k k' then remove_key k l' else (k', v) :: remove_key k l'
  end.

(** Modelled from the spec: the class [LRUCache] of [lru.py] is not part of
    the sources.  Section 4.1: built once with a fixed capacity, refused
    when the capacity is not positive. *)
Definition LRUCache_new (size : nat) : option LRUCache :=
  match size with
  | O => None
  | _ => Some (mkLRU size [])
  end.

(** Modelled from the spec: [LRUCache.get] of [lru.py], section 4.1: a hit
    returns the count and marks the key most recently used, a miss changes
    nothing.  The caller in [filters.py] tells a miss by the value [-1]. *)
Definition LRU_get (k : pystr) (c : LRUCache) : Z * LRUCache :=
  match lookup k (entries c) with
  | Some v => (v, mkLRU (maxsize c) ((k, v) :: remove_key k (entries c)))
  | None => ((-1)%Z, c)
  end.

(** Modelled from the spec: [LRUCache.put] of [lru.py], section 4.1: an
    existing key is updated and marked most recently used; a new key is
    inserted as most recently used, after the least recently used entry
    has been evicted when the cache is at capacity. *)
Definition LRU_put (k : pystr) (v : Z) (c : LRUCache) : unit * LRUCache :=
  match lookup k (entries c) with
  | Some _ => (tt, mkLRU (maxsize c) ((k, v) :: remove_key k (entries c)))
  | None =>
      if Nat.leb (maxsize c) (List.length (entries c))
      then (tt, mkLRU (maxsize c) ((k, v) :: removelast (entries c)))
      else (tt, mkLRU (maxsize c) ((k, v) :: entries c))
  end.

(** The count stored for a key, read without touching the cache. *)
Definition stored (k : pystr) (c : LRUCache) : option Z :=
  lookup k (entries c).

(** Code that reads and writes the module-level cache [LRU_TEST] is a
    state transformer over it. *)
Definition Cached (A : Type) : Type := LRUCache -> A * LRUCache.

Definition ret {A} (a : A) : Cached A := fun c => (a, c).

Definition bind {A B} (m : Cached A) (f : A -> Cached B) : Cached B :=
  fun c => let (a, c') := m c in f a c'.

Notation "x <- m ;; k" := (bind m (fun x => k))
  (at level 61, m at next level, right associativity).
Notation "m ;;; k" := (bind m (fun _ => k))
  (at level 61, right associativity).

Record Config : Type := mkConfig {
  MIN_DUPLCHECK_SIZE : Z;
  MAX_REPETITIONS : Z
}.

Definition put_in_cache (teststring : pystr) : Cached unit :=
  cacheval <- LRU_get teststring ;;
  if negb (Z.eqb cacheval (-1))
  then LRU_put teststring (cacheval + 1)%Z
  else LRU_put teststring 1%Z.

Section Duplicates.

(** [utils.trim] is not part of the sources; the detector is modelled
    for any normalisation of the joined text. *)
Variable trim : pystr -> pystr.

Definition normalized (element : Element) : pystr :=
  trim (join (py " ") (itertext element)).

Definition duplicate_test (element : Element) (config : Config)
  : Cached bool :=
  let teststring := normalized element in
  if (Z.of_nat (List.length teststring) >? MIN_DUPLCHECK_SIZE config)%Z
  then
    cacheval <- LRU_get teststring ;;
    if (cacheval >? MAX_REPETITIONS config)%Z
    then LRU_put teststring (cacheval + 1)%Z ;;; ret true
    else put_in_cache teststring ;;; ret false
  else put_in_cache teststring ;;; ret false.

(** Successive calls of the detector on a stream of blocks: for each
    call, the decision and the count then stored for the block's text. *)
Fixpoint detect_all (blocks : list Element) (config : Config)
    (c : LRUCache) : list (bool * option Z) * LRUCache :=
  match blocks with
  | [] => ([], c)
  | e :: rest =>
      let (r, c1) := duplicate_test e config c in
      let (out, c2) := detect_all rest config c1 in
      ((r, stored (normalized e) c1) :: out, c2)
  end.

End Duplicates.

(** Modelled from the spec: [utils.trim] is not part of the sources;
    section 4.2 has it trim leading and trailing whitespace. *)
Fixpoint lstrip (s : pystr) : pystr :=
  match s with
  | c :: s' => if is_space c then lstrip s' else s
  | [] => []
  end.

(** Modelled from the spec: the same, at both ends of the text. *)
Definition strip (s : pystr) : pystr := rev (lstrip (rev (lstrip s))).

(** ** The language gate *)

Record LangResult : Type := mkLangResult {
  language : pystr;
  probability : Z
}.

Record DocMeta : Type := mkDocMeta {
  doc_id : pystr;
  doc_url : pystr
}.

Inductive LogLevel : Type := DEBUG | INFO | WARNING | ERROR.

Inductive LogArg : Type :=
| ArgResult (r : LangResult)
| ArgStr (s : pystr).

Record LogRecord : Type := mkLog {
  level : LogLevel;
  message : string;
  args : list LogArg
}.

(** Code that calls [LOGGER] returns its value with the records emitted. *)
Definition Logged (A : Type) : Type := (A * list LogRecord)%type.

Definition LOGGER_warning (msg : string) (a : list LogArg) : list LogRecord :=
  [mkLog WARNING msg a].

Definition is_warning (r : LogRecord) : bool :=
  match level r with WARNING => true | _ => false end.

Section LanguageGate.

(** The optional module [cld3]: [Some get_language] when the import
    succeeded, [None] when it raised [ImportError]. *)
Variable cld3 : option (pystr -> LangResult).

Definition LANGID_FLAG : bool :=
  match cld3 with Some _ => true | None => false end.

Definition language_filter (temp_text temp_comments : pystr)
    (target_language : option pystr) (docmeta : DocMeta) : Logged bool :=
  match target_language with
  | Some target =>
      match cld3 with
      | Some get_language =>
          let langtest :=
            if Nat.ltb (List.length temp_text) (List.length temp_comments)
            then temp_comments else temp_text in
          let result := get_language langtest in
          if negb (str_eqb (language result) target)
          then (true,
                LOGGER_warning "wrong language: %s %s %s"
                  [ArgResult result; ArgStr (doc_id docmeta);
                   ArgStr (doc_url docmeta)])
          else (false, [])
      | None =>
          (false,
           LOGGER_warning
             "Detector not installed, no language detection run" [])
      end
  | None => (false, [])
  end.

End LanguageGate.

(** ** Regular expressions

    The fragment of [re] that the two patterns of the module use, run by
    backtracking in [re]'s order of preference: alternatives from left to
    right, repetitions and options greedily.  [exec ic r s k] matches [r]
    at the start of [s] and hands the text that is left to [k]; [ic] is
    the flag [re.IGNORECASE]. *)

Inductive charclass : Type := WordC | NotWordC.

Definition in_class (k : charclass) (c : ascii) : bool :=
  match k with
  | WordC => is_word c
  | NotWordC => negb (is_word c)
  end.

Inductive regex : Type :=
| Eps
| Chr (c : ascii)
| Cls (k : charclass)
| Seq (r1 r2 : regex)
| Alt (r1 r2 : regex)
| Opt (r : regex)
| Many (n : nat) (k : charclass)   (* k{n,} *)
| Eos.                             (* $ *)

(** A literal of the pattern against a character of the text.  With
    [re.IGNORECASE] the two are compared after lowercasing: on the range
    modelled this is what [re] does for the letters of these patterns
    (beyond it, [re] also takes the dotless and the dotted i, the long s
    and the Kelvin sign for i, s and k). *)
Definition chr_matches (ic : bool) (c d : ascii) : bool :=
  if ic then Ascii.eqb (lower_char d) (lower_char c) else Ascii.eqb d c.

Fixpoint many (A : Type) (n : nat) (cl : charclass) (s : pystr)
    (k : pystr -> option A) : option A :=
  let stop := match n with O => k s | S _ => None end in
  match s with
  | d :: s' =>
      if in_class cl d then
        match many (Nat.pred n) cl s' k with
        | Some x => Some x
        | None => stop
        end
      else stop
  | [] => stop
  end.

Fixpoint exec (A : Type) (ic : bool) (r : regex) (s : pystr)
    (k : pystr -> option A) : option A :=
  match r with
  | Eps => k s
  | Chr c =>
      match s with
      | d :: s' => if chr_matches ic c d then k s' else None
      | [] => None
      end
  | Cls cl =>
      match s with
      | d :: s' => if in_class cl d then k s' else None
      | [] => None
      end
  | Seq r1 r2 => exec ic r1 s (fun s' => exec ic r2 s' k)
  | Alt r1 r2 =>
      match exec ic r1 s k with
      | Some x => Some x
      | None => exec ic r2 s k
      end
  | Opt r1 =>
      match exec ic r1 s k with
      | Some x => Some x
      | None => k s
      end
  | Many n cl => many n cl s k
  | Eos =>
      match s with
      | [] => k s
      | [c] => if Ascii.eqb c LF then k s else None
      | _ => None
      end
  end.

Record Pattern : Type := mkPattern {
  pattern : regex;
  ignorecase : bool
}.

(** [p.match(s)]: the text left after the match, [None] when there is none. *)
Definition re_match (p : Pattern) (s : pystr) : option pystr :=
  exec (ignorecase p) (pattern p) s (fun rest => Some rest).

Definition matched (o : option pystr) : bool :=
  match o with Some _ => true | None => false end.

(** [p.findall(s)] for a pattern without groups: the matches found from
    left to right, none overlapping; an empty match is reported and the
    scan moves one character on. *)
Fixpoint findall_from (fuel : nat) (p : Pattern) (s : pystr) : list pystr :=
  match fuel with
  | O => []
  | S fuel' =>
      match re_match p s with
      | Some rest =>
          let n := List.length s - List.length rest in
          match n, s with
          | O, [] => [[]]
          | O, _ :: s' => [] :: findall_from fuel' p s'
          | _, _ => firstn n s :: findall_from fuel' p rest
          end
      | None =>
          match s with
          | [] => []
          | _ :: s' => findall_from fuel' p s'
          end
      end
  end.

Definition re_findall (p : Pattern) (s : pystr) : list pystr :=
  findall_from (S (List.length s)) p s.

Fixpoint lit_chars (l : list ascii) : regex :=
  match l with
  | [] => Eps
  | [c] => Chr c
  | c :: l' => Seq (Chr c) (lit_chars l')
  end.

Definition lit (s : string) : regex := lit_chars (py s).

Fixpoint alts (rs : list regex) : regex :=
  match rs with
  | [] => Eps
  | [r] => r
  | r :: rs' => Alt r (alts rs')
  end.

(** ** The structural text filter *)

(** The group of alternatives of [RE_FILTER]. *)
Definition LABEL_ALTS : regex :=
  alts [lit "Drucken";
        Seq (Chr "E") (Seq (Opt (Chr "-")) (lit "Mail"));
        lit "Facebook"; lit "Flipboard"; lit "Google";
        lit "Instagram"; lit "Linkedin"; lit "Mail"; lit "PDF";
        lit "Pinterest"; lit "Pocket"; lit "Print"; lit "Reddit";
        lit "Twitter"; lit "Whatsapp"; lit "Xing"].

Definition RE_FILTER : Pattern :=
  mkPattern (Seq (Many 0 NotWordC) (Seq LABEL_ALTS Eos)) true.

Definition text_chars_test (string : option pystr) : bool :=
  match string with
  | None => false
  | Some s =>
      if Nat.eqb (List.length s) 0 || isspace s then false else true
  end.

Fixpoint any_line_matches (lines : list pystr) : bool :=
  match lines with
  | [] => false
  | line :: rest =>
      if matched (re_match RE_FILTER line) then true
      else any_line_matches rest
  end.

Definition effective_text (element : Element) : option pystr :=
  match text element, tail element with
  | None, Some t => Some t
  | _, _ => text element
  end.

Definition textfilter (element : Element) : bool :=
  let testtext := effective_text element in
  if Bool.eqb (text_chars_test testtext) false then true
  else
    match testtext with
    | Some s => any_line_matches (splitlines s)
    | None => false
    end.

(** ** The content fingerprint *)

(** Bytes are integers in 0..255. *)
Definition bytes := list Z.

(** [str.encode()]: UTF-8, one byte below 128 and two bytes from 128 on. *)
Definition utf8_char (c : ascii) : bytes :=
  let n := Z.of_N (ord c) in
  if (n <? 128)%Z then [n]
  else [Z.lor 192 (Z.shiftr n 6); Z.lor 128 (Z.land n 63)].

Definition encode (s : pystr) : bytes := flat_map utf8_char s.

(** [bytes.decode()] of ASCII bytes. *)
Definition decode (b : bytes) : pystr := map (fun x => ascii_of_N (Z.to_N x)) b.

Module SHA1.

Local Open Scope Z_scope.

Definition mask32 (x : Z) : Z := Z.land x 4294967295.
Definition add32 (x y : Z) : Z := (x + y) mod 4294967296.
Definition not32 (x : Z) : Z := Z.lxor x 4294967295.
Definition rotl (n x : Z) : Z :=
  mask32 (Z.lor (Z.shiftl x n) (Z.shiftr x (32 - n))).

(** Big-endian bytes of a word of [n] bytes. *)
Fixpoint be_bytes (n : nat) (x : Z) : bytes :=
  match n with
  | O => []
  | S n' => Z.land (Z.shiftr x (8 * Z.of_nat n')) 255 :: be_bytes n' x
  end.

Definition be_word (b : bytes) : Z :=
  fold_left (fun acc x => Z.lor (Z.shiftl acc 8) x) b 0.

(** The message, the byte 0x80, zeros up to 56 modulo 64, and the length
    in bits on 8 bytes. *)
Definition pad (msg : bytes) : bytes :=
  let len := Z.of_nat (List.length msg) in
  msg ++ [128] ++ repeat 0 (Z.to_nat ((55 - len) mod 64))
      ++ be_bytes 8 (8 * len).

Fixpoint chunks (fuel n : nat) (b : bytes) : list bytes :=
  match fuel with
  | O => []
  | S fuel' =>
      match b with
      | [] => []
      | _ => firstn n b :: chunks fuel' n (skipn n b)
      end
  end.

Definition words_of (block : bytes) : list Z :=
  map be_word (chunks 16 4 block).

(** The message schedule: 16 words of the block extended to 80. *)
Fixpoint extend (n : nat) (w : list Z) : list Z :=
  match n with
  | O => w
  | S n' =>
      let t := List.length w in
      let x := Z.lxor (Z.lxor (nth (t - 3) w 0) (nth (t - 8) w 0))
                      (Z.lxor (nth (t - 14) w 0) (nth (t - 16) w 0)) in
      extend n' (w ++ [rotl 1 x])
  end.

Definition f (t : nat) (b c d : Z) : Z :=
  if Nat.ltb t 20 then Z.lor (Z.land b c) (Z.land (not32 b) d)
  else if Nat.ltb t 40 then Z.lxor (Z.lxor b c) d
  else if Nat.ltb t 60
  then Z.lor (Z.lor (Z.land b c) (Z.land b d)) (Z.land c d)
  else Z.lxor (Z.lxor b c) d.

Definition K (t : nat) : Z :=
  if Nat.ltb t 20 then 1518500249
  else if Nat.ltb t 40 then 1859775393
  else if Nat.ltb t 60 then 2400959708
  else 3395469782.

Record state : Type := mkState { ha : Z; hb : Z; hc : Z; hd : Z; he : Z }.

Definition init : state :=
  mkState 1732584193 4023233417 2562383102 271733878 3285377520.

Definition round (s : state) (tw : nat * Z) : state :=
  let (t, w) := tw in
  let temp :=
    add32 (add32 (add32 (add32 (rotl 5 (ha s)) (f t (hb s) (hc s) (hd s)))
                        (he s)) (K t)) w in
  mkState temp (ha s) (rotl 30 (hb s)) (hc s) (hd s).

Definition compress (h : state) (block : bytes) : state :=
  let w := extend 64 (words_of block) in
  let s := fold_left round (combine (seq 0 80) w) h in
  mkState (add32 (ha h) (ha s)) (add32 (hb h) (hb s))
          (add32 (hc h) (hc s)) (add32 (hd h) (hd s))
          (add32 (he h) (he s)).

Definition digest_of (h : state) : bytes :=
  be_bytes 4 (ha h) ++ be_bytes 4 (hb h) ++ be_bytes 4 (hc h)
    ++ be_bytes 4 (hd h) ++ be_bytes 4 (he h).

(** [hashlib.sha1(msg).digest()]. *)
Definition sha1 (msg : bytes) : bytes :=
  let p := pad msg in
  digest_of (fold_left compress (chunks (List.length p) 64 p) init).

End SHA1.

Module Base64.

Local Open Scope Z_scope.

(** The alphabet A-Z a-z 0-9 + / as ASCII codes. *)
Definition alphabet (i : Z) : Z :=
  if i <? 26 then 65 + i
  else if i <? 52 then 97 + (i - 26)
  else if i <? 62 then 48 + (i - 52)
  else if i =? 62 then 43
  else 47.

Definition pad_char : Z := 61.

(** [base64.b64encode]: three bytes give four characters; a last group
    of one or two bytes is padded with [=]. *)
Fixpoint b64encode (b : bytes) : bytes :=
  match b with
  | x :: y :: z :: rest =>
      alphabet (Z.shiftr x 2)
      :: alphabet (Z.lor (Z.shiftl (Z.land x 3) 4) (Z.shiftr y 4))
      :: alphabet (Z.lor (Z.shiftl (Z.land y 15) 2) (Z.shiftr z 6))
      :: alphabet (Z.land z 63)
      :: b64encode rest
  | [x; y] =>
      [alphabet (Z.shiftr x 2);
       alphabet (Z.lor (Z.shiftl (Z.land x 3) 4) (Z.shiftr y 4));
       alphabet (Z.shiftl (Z.land y 15) 2);
       pad_char]
  | [x] =>
      [alphabet (Z.shiftr x 2);
       alphabet (Z.shiftl (Z.land x 3) 4);
       pad_char; pad_char]
  | [] => []
  end.

End Base64.

(** The pattern [\w{5,}]. *)
Definition RE_TOKEN : Pattern := mkPattern (Many 5 WordC) false.

Definition content_fingerprint (string : pystr) : pystr :=
  let teststring := join (py " ") (re_findall RE_TOKEN (lower string)) in
  let fingerprint := SHA1.sha1 (encode teststring) in
  decode (Base64.b64encode fingerprint).

(** The description of the fingerprint's tokens in words: the maximal runs
    of word characters, read from left to right ([cur] is the run being
    read, in reverse), of which those of length at least 5 are kept. *)
Fixpoint word_runs_aux (cur : pystr) (s : pystr) : list pystr :=
  match s with
  | [] => match cur with [] => [] | _ => [rev cur] end
  | c :: s' =>
      if is_word c then word_runs_aux (c :: cur) s'
      else match cur with
           | [] => word_runs_aux [] s'
           | _ => rev cur :: word_runs_aux [] s'
           end
  end.

Definition word_runs (s : pystr) : list pystr := word_runs_aux [] s.

Definition qualifying_tokens (s : pystr) : list pystr :=
  filter (fun w => Nat.leb 5 (List.length w)) (word_runs (lower s)).

Definition fingerprint_spec (s : pystr) : pystr :=
  decode (Base64.b64encode
            (SHA1.sha1 (encode (join (py " ") (qualifying_tokens s))))).

(** ** Notions of the statements *)

(** What the patterns mean.  [denote ic r s1 s2]: the pattern [r] matches
    the text [s1] when [s2] is what follows it. *)
Fixpoint denote (ic : bool) (r : regex) (s1 s2 : pystr) : Prop :=
  match r with
  | Eps => s1 = []
  | Chr c => exists d, s1 = [d] /\ chr_matches ic c d = true
  | Cls k => exists d, s1 = [d] /\ in_class k d = true
  | Seq r1 r2 =>
      exists a b, s1 = a ++ b /\ denote ic r1 a (b ++ s2) /\ denote ic r2 b s2
  | Alt r1 r2 => denote ic r1 s1 s2 \/ denote ic r2 s1 s2
  | Opt r1 => denote ic r1 s1 s2 \/ s1 = []
  | Many n k => n <= List.length s1 /\ forallb (in_class k) s1 = true
  | Eos => s1 = [] /\ (s2 = [] \/ s2 = [LF])
  end.

(** The labels of the structural filter, as the specification lists them. *)
Definition LABELS : list string :=
  ["Drucken"; "E-Mail"; "EMail"; "Facebook"; "Flipboard"; "Google";
   "Instagram"; "Linkedin"; "Mail"; "PDF"; "Pinterest"; "Pocket"; "Print";
   "Reddit"; "Twitter"; "Whatsapp"; "Xing"]%string.

(** [s] is one of the labels, up to case. *)
Definition is_label (s : pystr) : bool :=
  existsb (fun l => str_eqb (lower s) (lower (py l))) LABELS.

Definition non_word (c : ascii) : bool := negb (is_word c).

(** A line made of non-word characters followed by a label that ends it. *)
Definition label_line (line : pystr) : Prop :=
  exists pre lab,
    line = pre ++ lab /\ forallb non_word pre = true /\ is_label lab = true.

(** The counts of the cache are those of the data model: at least 1. *)
Definition counts_positive (c : LRUCache) : Prop :=
  Forall (fun e => (1 <= snd e)%Z) (entries c).

(** The count of a key, 0 when the key is not stored. *)
Definition count_of (k : pystr) (c : LRUCache) : Z :=
  match stored k c with Some v => v | None => 0%Z end.

(** The text holds no line boundary. *)
Definition no_break (s : pystr) : Prop :=
  Forall (fun c => is_linebreak c = false) s.

(** The character DEL (U+007F). *)
Definition DEL : ascii := ascii_of_N 127.

(** The longest prefix of word characters and what follows it. *)
Fixpoint span_word (s : pystr) : pystr * pystr :=
  match s with
  | [] => ([], [])
  | c :: s' =>
      if is_word c
      then let (a, b) := span_word s' in (c :: a, b)
      else ([], s)
  end.

(** A token has at least 5 characters. *)
Definition long_enough (w : pystr) : bool := Nat.leb 5 (List.length w).

(** The text holds no run of 5 or more word characters. *)
Definition no_long_run (s : pystr) : Prop :=
  forall a w b,
    s = a ++ w ++ b -> forallb is_word w = true -> List.length w < 5.

(** A check of [no_long_run] that computes: at no position does a run of
    5 word characters start. *)
Fixpoint tails (s : pystr) : list pystr :=
  s :: match s with [] => [] | _ :: s' => tails s' end.

Definition all_runs_short (s : pystr) : bool :=
  forallb (fun t => Nat.ltb (List.length (fst (span_word t))) 5) (tails s).

(** The characters of base64 text: letters, digits, [+], [/] and [=]. *)
Definition base64_char (x : Z) : bool :=
  ((65 <=? x) && (x <=? 90) || (97 <=? x) && (x <=? 122)
   || (48 <=? x) && (x <=? 57) || (x =? 43) || (x =? 47) || (x =? 61))%Z.

(** A word: a non-empty run of word characters; a separator: a non-empty
    run of other characters, whitespace and punctuation among them. *)
Definition is_run (w : pystr) : Prop := w <> [] /\ forallb is_word w = true.
Definition is_sep (p : pystr) : Prop := p <> [] /\ forallb non_word p = true.

(** The text of a first word followed by separators and words. *)
Fixpoint weave (w : pystr) (rest : list (pystr * pystr)) : pystr :=
  match rest with
  | [] => w
  | (sep, w') :: rest' => w ++ sep ++ weave w' rest'
  end.

Definition well_spaced (rest : list (pystr * pystr)) : Prop :=
  Forall (fun p => is_sep (fst p) /\ is_run (snd p)) rest.

(** Sample data: a block of text, a configuration and caches. *)
Definition block (s : string) : Element := mkElement (Some (py s)) None [].

Definition sample_config : Config := mkConfig 5 2.

Definition empty_cache : LRUCache := mkLRU 4 [].

Definition empty_block : Element := mkElement (Some []) None [].

Definition seen_cache : LRUCache :=
  mkLRU 4 [(py "Menu", 7%Z); (py "Read more about this", 1%Z)].

(** No count of the cache is negative: the value [-1], by which the
    callers of [LRU_get] tell a miss, is not among them. *)
Definition counts_nonneg (c : LRUCache) : Prop :=
  Forall (fun e => (0 <= snd e)%Z) (entries c).

(** The first character of UTF-8 bytes and the bytes after it, for the
    one- and two-byte forms that [encode] produces. *)
Definition utf8_first (b : bytes) : option (ascii * bytes) :=
  match b with
  | [] => None
  | x :: r =>
      if (x <? 128)%Z then Some (ascii_of_N (Z.to_N x), r)
      else
        match r with
        | y :: r' =>
            Some (ascii_of_N
                    (Z.to_N (Z.lor (Z.shiftl (Z.land x 31) 6) (Z.land y 63))),
                  r')
        | [] => None
        end
  end.

(** Lowercasing of the letters A to Z alone. *)
Definition ascii_lower_char (c : ascii) : ascii :=
  if in_range 65 90 (ord c) then ascii_of_N (ord c + 32) else c.

Definition ascii_lower (s : pystr) : pystr := map ascii_lower_char s.

(** * Properties *)

(** ** The model on known values *)

Example splitlines_sample :
  splitlines
    (py "one" ++ [CR; LF] ++ py "two" ++ [LF; LF] ++ py "three" ++ [LF])
  = [py "one"; py "two"; []; py "three"].
Proof. reflexivity. Qed.

Example itertext_sample :
  itertext (mkElement (Some (py "a")) (Some (py "z"))
              [mkElement (Some (py "b")) (Some (py "c")) [];
               mkElement None (Some (py "d")) []])
  = [py "a"; py "b"; py "c"; py "d"].
Proof. reflexivity. Qed.

Example findall_sample :
  re_findall RE_TOKEN (py "hello world! testing quick, abcd abcde_1")
  = [py "hello"; py "world"; py "testing"; py "quick"; py "abcde_1"].
Proof. vm_compute. reflexivity. Qed.

(** The digest of "abc" is a9993e36 4706816a ba3e2571 7850c26c 9cd0d89d. *)
Example sha1_abc :
  SHA1.sha1 (encode (py "abc"))
  = [169; 153; 62; 54; 71; 6; 129; 106; 186; 62; 37; 113; 120; 80; 194; 108;
     156; 208; 216; 157]%Z.
Proof. vm_compute. reflexivity. Qed.

Example b64encode_sample :
  decode (Base64.b64encode (encode (py "any carnal pleas")))
  = py "YW55IGNhcm5hbCBwbGVhcw==".
Proof. vm_compute. reflexivity. Qed.

Example content_fingerprint_sample :
  content_fingerprint (py "Hello World! Testing quick")
  = py "EchReEK9cFn//JCsfiF5DDElolM=".
Proof. vm_compute. reflexivity. Qed.

Example LRU_recency_sample :
  let c0 := mkLRU 2 [] in
  let c1 := snd (LRU_put (py "A") 1 c0) in
  let c2 := snd (LRU_put (py "B") 1 c1) in
  let c3 := snd (LRU_get (py "A") c2) in
  let c4 := snd (LRU_put (py "C") 1 c3) in
  entries c4 = [(py "C", 1%Z); (py "A", 1%Z)].
Proof. reflexivity. Qed.

(** ** Strings *)

Lemma str_eqb_refl (a : pystr) : str_eqb a a = true.
Proof.
  induction a as [|x a IH]; simpl; [reflexivity|].
  now rewrite Ascii.eqb_refl, IH.
Qed.

Lemma str_eqb_eq (a b : pystr) : str_eqb a b = true <-> a = b.
Proof.
  split.
  - revert b; induction a as [|x a IH]; intros [|y b]; simpl;
      try discriminate; [reflexivity|].
    intros H. apply andb_true_iff in H as [Hx Hab].
    apply Ascii.eqb_eq in Hx. apply IH in Hab. now subst.
  - intros ->. apply str_eqb_refl.
Qed.

(** ** The cache *)

Lemma lookup_positive k l v :
  Forall (fun e => (1 <= snd e)%Z) l -> lookup k l = Some v -> (1 <= v)%Z.
Proof.
  induction l as [|[k' v'] l IH]; simpl; [discriminate|].
  intros Hall Hl. inversion Hall as [|? ? Hv Hrest]; subst.
  destruct (str_eqb k k').
  - injection Hl as <-. exact Hv.
  - now apply IH.
Qed.

Lemma remove_key_positive k l :
  Forall (fun e => (1 <= snd e)%Z) l ->
  Forall (fun e => (1 <= snd e)%Z) (remove_key k l).
Proof.
  induction 1 as [|[k' v'] l Hv _ IH]; simpl; [constructor|].
  destruct (str_eqb k k'); [exact IH | now constructor].
Qed.

Lemma removelast_positive (l : list (pystr * Z)) :
  Forall (fun e => (1 <= snd e)%Z) l ->
  Forall (fun e => (1 <= snd e)%Z) (removelast l).
Proof.
  induction 1 as [|e l He Hl IH]; simpl; [constructor|].
  destruct l; [constructor | now constructor].
Qed.

Lemma LRU_get_value k c :
  fst (LRU_get k c) = match stored k c with Some v => v | None => (-1)%Z end.
Proof. unfold LRU_get, stored. now destruct (lookup k (entries c)). Qed.

Lemma LRU_get_stored k c : stored k (snd (LRU_get k c)) = stored k c.
Proof.
  unfold LRU_get, stored. destruct (lookup k (entries c)) eqn:E; simpl.
  - now rewrite str_eqb_refl.
  - exact E.
Qed.

Lemma LRU_put_stored k v c : stored k (snd (LRU_put k v c)) = Some v.
Proof.
  unfold LRU_put, stored. destruct (lookup k (entries c)); simpl.
  - now rewrite str_eqb_refl.
  - destruct (Nat.leb _ _); simpl; now rewrite str_eqb_refl.
Qed.

Lemma LRU_get_positive k c :
  counts_positive c -> counts_positive (snd (LRU_get k c)).
Proof.
  unfold counts_positive, LRU_get. intros H.
  destruct (lookup k (entries c)) eqn:E; simpl; [|exact H].
  constructor; [simpl; eapply lookup_positive; eauto|].
  now apply remove_key_positive.
Qed.

Lemma LRU_put_positive k v c :
  (1 <= v)%Z -> counts_positive c -> counts_positive (snd (LRU_put k v c)).
Proof.
  unfold counts_positive, LRU_put. intros Hv H.
  destruct (lookup k (entries c)); simpl.
  - constructor; [exact Hv | now apply remove_key_positive].
  - destruct (Nat.leb _ _); simpl; constructor; auto.
    now apply removelast_positive.
Qed.

(** [put_in_cache] as one update of the stored count. *)
Lemma put_in_cache_stored k c :
  stored k c <> Some (-1)%Z ->
  stored k (snd (put_in_cache k c))
  = Some (match stored k c with Some v => (v + 1)%Z | None => 1%Z end).
Proof.
  intros Hne. unfold put_in_cache, bind.
  destruct (LRU_get k c) as [v c1] eqn:G.
  pose proof (LRU_get_value k c) as Hv. rewrite G in Hv. simpl in Hv.
  destruct (stored k c) as [n|] eqn:S; subst v.
  - destruct (Z.eqb_spec n (-1)) as [->|_]; [congruence|]. simpl.
    apply LRU_put_stored.
  - simpl. apply LRU_put_stored.
Qed.

Lemma put_in_cache_positive k c :
  counts_positive c -> counts_positive (snd (put_in_cache k c)).
Proof.
  intros H. unfold put_in_cache, bind.
  destruct (LRU_get k c) as [v c1] eqn:G.
  assert (H1 : counts_positive c1).
  { replace c1 with (snd (LRU_get k c)) by now rewrite G.
    now apply LRU_get_positive. }
  pose proof (LRU_get_value k c) as Hv. rewrite G in Hv. simpl in Hv.
  destruct (Z.eqb_spec v (-1)) as [Heq|Hneq]; simpl.
  - apply LRU_put_positive; [lia | exact H1].
  - apply LRU_put_positive; [|exact H1].
    destruct (stored k c) as [m|] eqn:S; [|congruence].
    subst v. pose proof (lookup_positive k H S). lia.
Qed.

Lemma counts_positive_stored k c v :
  counts_positive c -> stored k c = Some v -> (1 <= v)%Z.
Proof. intros H. now apply lookup_positive. Qed.

Lemma str_eqb_neq (a b : pystr) : a <> b -> str_eqb a b = false.
Proof.
  intros H. destruct (str_eqb a b) eqn:E; [|reflexivity].
  apply str_eqb_eq in E. contradiction.
Qed.

Lemma lookup_remove_other k k' l :
  k <> k' -> lookup k (remove_key k' l) = lookup k l.
Proof.
  intros Hne. induction l as [|[k0 v] l IH]; simpl; [reflexivity|].
  destruct (str_eqb k' k0) eqn:E1.
  - apply str_eqb_eq in E1. subst k0.
    now rewrite (str_eqb_neq Hne).
  - simpl. now rewrite IH.
Qed.

Lemma lookup_removelast k l :
  lookup k (removelast l) = lookup k l \/ lookup k (removelast l) = None.
Proof.
  induction l as [|[k0 v] l IH]; simpl; [now left|].
  destruct l as [|e l]; [now right|].
  cbn [lookup]. destruct (str_eqb k k0); [now left | exact IH].
Qed.

(** Reading or writing another key leaves the count of [k] as it is, or
    evicts [k]. *)
Lemma LRU_get_other k k' c :
  k <> k' -> stored k (snd (LRU_get k' c)) = stored k c.
Proof.
  intros Hne. unfold LRU_get, stored.
  destruct (lookup k' (entries c)); simpl; [|reflexivity].
  now rewrite (str_eqb_neq Hne), lookup_remove_other.
Qed.

Lemma LRU_put_other k k' v c :
  k <> k' ->
  stored k (snd (LRU_put k' v c)) = stored k c
  \/ stored k (snd (LRU_put k' v c)) = None.
Proof.
  intros Hne. unfold LRU_put, stored.
  destruct (lookup k' (entries c)); simpl.
  - left. now rewrite (str_eqb_neq Hne), lookup_remove_other.
  - destruct (Nat.leb _ _); simpl; rewrite (str_eqb_neq Hne).
    + apply lookup_removelast.
    + now left.
Qed.

Lemma put_in_cache_other k k' c :
  k <> k' ->
  stored k (snd (put_in_cache k' c)) = stored k c
  \/ stored k (snd (put_in_cache k' c)) = None.
Proof.
  intros Hne. unfold put_in_cache, bind.
  pose proof (LRU_get_other c Hne) as Hg.
  destruct (LRU_get k' c) as [v c1]. simpl in Hg. rewrite <- Hg.
  destruct (negb (v =? -1)%Z); now apply LRU_put_other.
Qed.

(** ** The duplicate detector *)

Section DuplicateFacts.

Variable trim : pystr -> pystr.
Variable config : Config.

Local Abbreviation key := (normalized trim).
Local Abbreviation long e :=
  (Z.of_nat (List.length (key e)) > MIN_DUPLCHECK_SIZE config)%Z.

(** The two paths of [duplicate_test], without the monad. *)
Lemma duplicate_test_short e c :
  (Z.of_nat (List.length (key e)) <= MIN_DUPLCHECK_SIZE config)%Z ->
  duplicate_test trim e config c = (false, snd (put_in_cache (key e) c)).
Proof.
  intros H. unfold duplicate_test.
  destruct (Z.gtb_spec (Z.of_nat (List.length (key e)))
              (MIN_DUPLCHECK_SIZE config)); [lia|].
  unfold bind, ret. now destruct (put_in_cache (key e) c).
Qed.

Lemma duplicate_test_long e c :
  long e ->
  duplicate_test trim e config c
  = let v := fst (LRU_get (key e) c) in
    let c1 := snd (LRU_get (key e) c) in
    if (v >? MAX_REPETITIONS config)%Z
    then (true, snd (LRU_put (key e) (v + 1)%Z c1))
    else (false, snd (put_in_cache (key e) c1)).
Proof.
  intros H. unfold duplicate_test.
  destruct (Z.gtb_spec (Z.of_nat (List.length (key e)))
              (MIN_DUPLCHECK_SIZE config)); [|lia].
  unfold bind, ret. destruct (LRU_get (key e) c) as [v c1]. simpl.
  destruct (v >? MAX_REPETITIONS config)%Z.
  - now destruct (LRU_put (key e) (v + 1)%Z c1).
  - now destruct (put_in_cache (key e) c1).
Qed.

(** One call on a block longer than the minimum size: the decision
    compares the count found with the threshold, and the count stored
    afterwards is one more than before (1 for a new text). *)
Lemma duplicate_test_step e c :
  long e ->
  (0 <= MAX_REPETITIONS config)%Z ->
  stored (key e) c <> Some (-1)%Z ->
  fst (duplicate_test trim e config c)
    = (count_of (key e) c >? MAX_REPETITIONS config)%Z
  /\ stored (key e) (snd (duplicate_test trim e config c))
     = Some (count_of (key e) c + 1)%Z.
Proof.
  intros Hl Hm Hne. rewrite duplicate_test_long by exact Hl.
  cbv zeta. rewrite LRU_get_value. unfold count_of.
  destruct (stored (key e) c) as [n|] eqn:S.
  - destruct (n >? MAX_REPETITIONS config)%Z; simpl.
    + split; [reflexivity | apply LRU_put_stored].
    + split; [reflexivity|].
      rewrite put_in_cache_stored; rewrite LRU_get_stored, S; congruence.
  - destruct (Z.gtb_spec (-1) (MAX_REPETITIONS config)); [lia|].
    destruct (Z.gtb_spec 0 (MAX_REPETITIONS config)); [lia|]. simpl.
    split; [reflexivity|].
    rewrite put_in_cache_stored; rewrite LRU_get_stored, S; congruence.
Qed.

Lemma duplicate_test_positive e c :
  (0 <= MAX_REPETITIONS config)%Z ->
  counts_positive c ->
  counts_positive (snd (duplicate_test trim e config c)).
Proof.
  intros Hm H.
  destruct (Z.le_gt_cases (Z.of_nat (List.length (key e)))
              (MIN_DUPLCHECK_SIZE config)) as [Hs|Hl].
  - rewrite duplicate_test_short by exact Hs. simpl.
    now apply put_in_cache_positive.
  - rewrite duplicate_test_long by lia. cbv zeta.
    pose proof (LRU_get_positive (key e) H) as H1.
    destruct (Z.gtb_spec (fst (LRU_get (key e) c))
                (MAX_REPETITIONS config)); simpl.
    + apply LRU_put_positive; [lia | exact H1].
    + now apply put_in_cache_positive.
Qed.

(** Successive calls on blocks of one and the same text [k]: the [i]-th
    call decides on the count before it and leaves the count one higher. *)
Lemma detect_all_same k blocks : forall c,
  (0 <= MAX_REPETITIONS config)%Z ->
  (Z.of_nat (List.length k) > MIN_DUPLCHECK_SIZE config)%Z ->
  Forall (fun e => key e = k) blocks ->
  (0 <= count_of k c)%Z ->
  stored k c <> Some (-1)%Z ->
  fst (detect_all trim blocks config c)
  = map (fun i => ((count_of k c + Z.of_nat i >? MAX_REPETITIONS config)%Z,
                   Some (count_of k c + Z.of_nat i + 1)%Z))
        (seq 0 (List.length blocks)).
Proof.
  induction blocks as [|e rest IH]; intros c Hm Hk Hall H0 Hne;
    [reflexivity|].
  inversion Hall as [|? ? He Hrest]; subst.
  destruct (@duplicate_test_step e c) as [Hr Hs]; auto.
  cbn [detect_all List.length seq map].
  destruct (duplicate_test trim e config c) as [r c1] eqn:D.
  simpl in Hr, Hs.
  specialize (IH c1 Hm Hk Hrest).
  destruct (detect_all trim rest config c1) as [out c2] eqn:R.
  simpl in IH |- *.
  assert (Hc1 : count_of (key e) c1 = (count_of (key e) c + 1)%Z)
    by (unfold count_of at 1; now rewrite Hs).
  rewrite IH; [| lia | rewrite Hs; intros [=]; lia].
  rewrite Hr, Hs, Z.add_0_r. f_equal.
  rewrite <- seq_shift, map_map. apply map_ext. intros i.
  rewrite Hc1.
  replace (count_of (key e) c + 1 + Z.of_nat i)%Z
    with (count_of (key e) c + Z.of_nat (S i))%Z by lia.
  reflexivity.
Qed.

(** A call on another text leaves the count of [k] as it is, or evicts
    [k]. *)
Lemma duplicate_test_other k e c :
  key e <> k ->
  stored k (snd (duplicate_test trim e config c)) = stored k c
  \/ stored k (snd (duplicate_test trim e config c)) = None.
Proof.
  intros Hne. assert (Hne' : k <> key e) by congruence.
  destruct (Z.le_gt_cases (Z.of_nat (List.length (key e)))
              (MIN_DUPLCHECK_SIZE config)) as [Hs|Hl].
  - rewrite duplicate_test_short by exact Hs. simpl.
    now apply put_in_cache_other.
  - rewrite duplicate_test_long by lia. cbv zeta.
    rewrite <- (LRU_get_other c Hne').
    destruct (_ >? _)%Z; simpl.
    + now apply LRU_put_other.
    + now apply put_in_cache_other.
Qed.

End DuplicateFacts.

Lemma duplicate_test_decision trim config e c :
  (Z.of_nat (List.length (normalized trim e)) > MIN_DUPLCHECK_SIZE config)%Z ->
  fst (duplicate_test trim e config c)
  = (match stored (normalized trim e) c with
     | Some n => n
     | None => -1
     end >? MAX_REPETITIONS config)%Z.
Proof.
  intros Hl. rewrite duplicate_test_long by exact Hl. cbv zeta.
  rewrite LRU_get_value.
  now destruct (_ >? _)%Z.
Qed.

(** C1: with [MAX_REPETITIONS = 2] and a text [k] longer than the minimum
    size, every call decides by [count before the call > 2], a text that is
    not stored counting as below the threshold; and from a cache that does
    not hold [k], the successive occurrences of [k] are answered [False]
    three times, the stored count becoming 1, 2 and 3, and [True] from the
    fourth on. *)
Theorem C1_threshold_boundary trim config k :
  MAX_REPETITIONS config = 2%Z ->
  (Z.of_nat (List.length k) > MIN_DUPLCHECK_SIZE config)%Z ->
  (forall e c,
     normalized trim e = k ->
     fst (duplicate_test trim e config c)
     = match stored k c with
       | Some n => (n >? 2)%Z
       | None => false
       end)
  /\ (forall blocks c,
        Forall (fun e => normalized trim e = k) blocks ->
        stored k c = None ->
        fst (detect_all trim blocks config c)
        = map (fun i => ((Z.of_nat i >? 3)%Z, Some (Z.of_nat i)))
              (seq 1 (List.length blocks))).
Proof.
  intros Hmax Hlen. split.
  - intros e c <-. rewrite duplicate_test_decision by exact Hlen.
    rewrite Hmax. now destruct (stored (normalized trim e) c).
  - intros blocks c Hall Hnone.
    assert (H0 : count_of k c = 0%Z) by (unfold count_of; now rewrite Hnone).
    rewrite (@detect_all_same trim config k blocks c);
      [| lia | exact Hlen | exact Hall | lia | congruence].
    rewrite <- seq_shift, map_map. apply map_ext. intros i.
    rewrite H0, Hmax.
    replace (0 + Z.of_nat i + 1)%Z with (Z.of_nat (S i)) by lia.
    f_equal. destruct (Z.gtb_spec (0 + Z.of_nat i) 2),
      (Z.gtb_spec (Z.of_nat (S i)) 3); try reflexivity; lia.
Qed.

Lemma C1_threshold_boundary_witness :
  fst (duplicate_test strip (block " Read more about this ") sample_config
         seen_cache) = false
  /\ fst (detect_all strip
            [block "Read more about this"; block " Read more about this";
             block "Read more about this "; block "Read more about this";
             block "Read more about this"]
            sample_config empty_cache)
     = [(false, Some 1%Z); (false, Some 2%Z); (false, Some 3%Z);
        (true, Some 4%Z); (true, Some 5%Z)].
Proof.
  destruct (@C1_threshold_boundary strip sample_config
              (py "Read more about this") eq_refl eq_refl) as [Hone Hall].
  split.
  - exact (Hone (block " Read more about this ") seen_cache eq_refl).
  - apply (Hall [block "Read more about this"; block " Read more about this";
                 block "Read more about this "; block "Read more about this";
                 block "Read more about this"] empty_cache).
    + repeat constructor.
    + reflexivity.
Defined.

(** C3: a block whose normalized text is not longer than the minimum size
    is never a repeat, whatever the cache holds, and the call still counts
    it: the stored count goes up by 1, or is set to 1 for a new text. *)
Theorem C3_min_size_exemption trim config e c :
  (Z.of_nat (List.length (normalized trim e)) <= MIN_DUPLCHECK_SIZE config)%Z ->
  counts_positive c ->
  fst (duplicate_test trim e config c) = false
  /\ stored (normalized trim e) (snd (duplicate_test trim e config c))
     = Some (match stored (normalized trim e) c with
             | Some n => (n + 1)%Z
             | None => 1%Z
             end).
Proof.
  intros Hs Hpos. rewrite duplicate_test_short by exact Hs. simpl.
  split; [reflexivity|].
  apply put_in_cache_stored. intros Hbad.
  pose proof (counts_positive_stored _ Hpos Hbad). lia.
Qed.

Lemma C3_min_size_exemption_witness :
  (fst (duplicate_test strip (block "Menu") sample_config seen_cache) = false
   /\ stored (py "Menu")
        (snd (duplicate_test strip (block "Menu") sample_config seen_cache))
      = Some 8%Z)
  /\ (fst (duplicate_test strip empty_block sample_config seen_cache) = false
      /\ stored []
           (snd (duplicate_test strip empty_block sample_config seen_cache))
         = Some 1%Z).
Proof.
  split.
  - apply (@C3_min_size_exemption strip sample_config (block "Menu")
             seen_cache).
    + vm_compute. discriminate.
    + repeat constructor; vm_compute; discriminate.
  - apply (@C3_min_size_exemption strip sample_config empty_block
             seen_cache).
    + vm_compute. discriminate.
    + repeat constructor; vm_compute; discriminate.
Defined.

(** C5: repeated calls of the detector on one and the same text [k],
    longer than the minimum size: after the [i]-th call the stored count
    is the count before the first call plus [i], a text not yet stored
    starting at 1; the count goes up by exactly 1 at every call, also past
    the threshold, and never down.  A call on another text leaves the
    count of [k] as it is, unless it evicts [k]. *)
Theorem C5_count_monotonicity trim config k blocks c :
  (0 <= MAX_REPETITIONS config)%Z ->
  (Z.of_nat (List.length k) > MIN_DUPLCHECK_SIZE config)%Z ->
  Forall (fun e => normalized trim e = k) blocks ->
  counts_positive c ->
  map snd (fst (detect_all trim blocks config c))
  = map (fun i => Some (count_of k c + Z.of_nat i)%Z)
        (seq 1 (List.length blocks))
  /\ (forall e c',
        normalized trim e <> k ->
        stored k (snd (duplicate_test trim e config c')) = stored k c'
        \/ stored k (snd (duplicate_test trim e config c')) = None).
Proof.
  intros Hmax Hlen Hall Hpos. split.
  - assert (H0 : (0 <= count_of k c)%Z).
    { unfold count_of. destruct (stored k c) as [n|] eqn:S; [|lia].
      pose proof (counts_positive_stored _ Hpos S). lia. }
    assert (Hne : stored k c <> Some (-1)%Z).
    { intros Hbad. pose proof (counts_positive_stored _ Hpos Hbad). lia. }
    rewrite (@detect_all_same trim config k blocks c) by assumption.
    rewrite <- seq_shift, !map_map. apply map_ext. intros i. simpl snd.
    f_equal. lia.
  - intros e c' Hne. now apply duplicate_test_other.
Qed.

Lemma C5_count_monotonicity_witness :
  map snd (fst (detect_all strip
                  [block "Read more about this"; block "Read more about this";
                   block "Read more about this"; block "Read more about this"]
                  sample_config seen_cache))
  = [Some 2%Z; Some 3%Z; Some 4%Z; Some 5%Z].
Proof.
  apply (@C5_count_monotonicity strip sample_config
           (py "Read more about this")
           [block "Read more about this"; block "Read more about this";
            block "Read more about this"; block "Read more about this"]
           seen_cache).
  - vm_compute. discriminate.
  - reflexivity.
  - repeat constructor.
  - repeat constructor; vm_compute; discriminate.
Defined.

(** ** Regular expressions *)

Lemma many_matches A (cl : charclass) (k : pystr -> option A) s : forall n,
  many n cl s k <> None <->
  exists s1 s2, s = s1 ++ s2 /\ n <= List.length s1
                /\ forallb (in_class cl) s1 = true /\ k s2 <> None.
Proof.
  induction s as [|d s IH]; intros n; simpl.
  - split.
    + intros H. exists [], []. destruct n; [|congruence].
      repeat split; auto.
    + intros (s1 & s2 & E & Hn & _ & Hk).
      symmetry in E. apply app_eq_nil in E as [-> ->].
      simpl in Hn. now replace n with 0 by lia.
  - destruct (in_class cl d) eqn:Hd.
    + split.
      * intros H. destruct (many (Nat.pred n) cl s k) eqn:M.
        -- assert (M' : many (Nat.pred n) cl s k <> None) by congruence.
           apply IH in M' as (s1 & s2 & -> & Hn & Hall & Hk).
           exists (d :: s1), s2. simpl. rewrite Hd, Hall.
           repeat split; auto. lia.
        -- exists [], (d :: s). destruct n; [|congruence].
           repeat split; auto.
      * intros (s1 & s2 & E & Hn & Hall & Hk).
        destruct s1 as [|d' s1]; simpl in *.
        -- subst s2. replace n with 0 in * by lia. simpl.
           now destruct (many 0 cl s k).
        -- injection E as <- ->. apply andb_true_iff in Hall as [_ Hall].
           assert (M : many (Nat.pred n) cl (s1 ++ s2) k <> None).
           { apply IH. exists s1, s2. repeat split; auto. lia. }
           now destruct (many (Nat.pred n) cl (s1 ++ s2) k).
    + split.
      * intros H. exists [], (d :: s). destruct n; [|congruence].
        repeat split; auto.
      * intros (s1 & s2 & E & Hn & Hall & Hk).
        destruct s1 as [|d' s1]; simpl in *.
        -- subst s2. now replace n with 0 by lia.
        -- injection E as <- ->. rewrite Hd in Hall. discriminate.
Qed.

(** The matcher finds a match exactly when the pattern has one. *)
Lemma exec_matches A ic r : forall s (k : pystr -> option A),
  exec ic r s k <> None <->
  exists s1 s2, s = s1 ++ s2 /\ denote ic r s1 s2 /\ k s2 <> None.
Proof.
  induction r as [|c|cl|r1 IH1 r2 IH2|r1 IH1 r2 IH2|r1 IH1|n cl|];
    intros s k; simpl.
  - split.
    + intros H. now exists [], s.
    + now intros (s1 & s2 & -> & -> & Hk).
  - destruct s as [|d s].
    + split; [congruence|].
      intros (s1 & s2 & E & (d & -> & _) & _). discriminate.
    + split.
      * intros H. destruct (chr_matches ic c d) eqn:Hc; [|congruence].
        exists [d], s. repeat split; eauto.
      * intros (s1 & s2 & E & (d' & -> & Hc) & Hk).
        injection E as -> ->. now rewrite Hc.
  - destruct s as [|d s].
    + split; [congruence|].
      intros (s1 & s2 & E & (d & -> & _) & _). discriminate.
    + split.
      * intros H. destruct (in_class cl d) eqn:Hc; [|congruence].
        exists [d], s. repeat split; eauto.
      * intros (s1 & s2 & E & (d' & -> & Hc) & Hk).
        injection E as -> ->. now rewrite Hc.
  - rewrite IH1. split.
    + intros (a & rest & -> & Ha & Hk).
      apply IH2 in Hk as (b & s2 & -> & Hb & Hk).
      exists (a ++ b), s2. rewrite <- app_assoc. repeat split; auto.
      now exists a, b.
    + intros (s1 & s2 & -> & (a & b & -> & Ha & Hb) & Hk).
      exists a, (b ++ s2). rewrite <- app_assoc. repeat split; auto.
      apply IH2. now exists b, s2.
  - split.
    + intros H. destruct (exec ic r1 s k) eqn:E1.
      * assert (E : exec ic r1 s k <> None) by congruence.
        apply IH1 in E as (s1 & s2 & -> & Hd & Hk).
        exists s1, s2. auto.
      * apply IH2 in H as (s1 & s2 & -> & Hd & Hk).
        exists s1, s2. auto.
    + intros (s1 & s2 & -> & [Hd|Hd] & Hk).
      * assert (E : exec ic r1 (s1 ++ s2) k <> None)
          by (apply IH1; now exists s1, s2).
        now destruct (exec ic r1 (s1 ++ s2) k).
      * assert (E : exec ic r2 (s1 ++ s2) k <> None)
          by (apply IH2; now exists s1, s2).
        now destruct (exec ic r1 (s1 ++ s2) k).
  - split.
    + intros H. destruct (exec ic r1 s k) eqn:E1.
      * assert (E : exec ic r1 s k <> None) by congruence.
        apply IH1 in E as (s1 & s2 & -> & Hd & Hk).
        exists s1, s2. auto.
      * exists [], s. auto.
    + intros (s1 & s2 & -> & [Hd| ->] & Hk).
      * assert (E : exec ic r1 (s1 ++ s2) k <> None)
          by (apply IH1; now exists s1, s2).
        now destruct (exec ic r1 (s1 ++ s2) k).
      * simpl. now destruct (exec ic r1 s2 k).
  - rewrite many_matches. split.
    + intros (s1 & s2 & E & Hn & Hall & Hk). exists s1, s2. auto.
    + intros (s1 & s2 & E & (Hn & Hall) & Hk). exists s1, s2. auto.
  - split.
    + intros H. exists [], s. repeat split; auto.
      * destruct s as [|c [|c' s]]; auto.
        -- right. destruct (Ascii.eqb_spec c LF); congruence.
        -- congruence.
      * destruct s as [|c [|c' s]]; auto; try congruence.
        now destruct (Ascii.eqb c LF).
    + intros (s1 & s2 & -> & (-> & [->| ->]) & Hk); simpl; auto.
Qed.

Lemma re_match_matched p s :
  matched (re_match p s) = true <->
  exists s1 s2, s = s1 ++ s2 /\ denote (ignorecase p) (pattern p) s1 s2.
Proof.
  unfold re_match. split.
  - intros H.
    assert (E : exec (ignorecase p) (pattern p) s (fun r => Some r) <> None)
      by (intros E; rewrite E in H; discriminate).
    apply exec_matches in E as (s1 & s2 & -> & Hd & _). eauto.
  - intros (s1 & s2 & -> & Hd).
    assert (E : exec (ignorecase p) (pattern p) (s1 ++ s2)
                  (fun r => Some r) <> None).
    { apply exec_matches. exists s1, s2. repeat split; auto. congruence. }
    now destruct (exec _ _ _ _).
Qed.

Lemma denote_lit_chars l : forall s1 s2,
  denote true (lit_chars l) s1 s2 <-> lower s1 = lower l.
Proof.
  induction l as [|c l IH]; intros s1 s2.
  - simpl. split; [now intros -> | now destruct s1].
  - destruct l as [|c' l].
    + simpl. unfold chr_matches. split.
      * intros (d & -> & Hd). apply Ascii.eqb_eq in Hd. simpl. now rewrite Hd.
      * destruct s1 as [|d [|d' s1]]; simpl; try discriminate.
        intros [= Hd]. exists d. now rewrite Hd, Ascii.eqb_refl.
    + change (lit_chars (c :: c' :: l))
        with (Seq (Chr c) (lit_chars (c' :: l))).
      cbn [denote]. unfold chr_matches. split.
      * intros (a & b & -> & (d & -> & Hd) & Hb).
        apply IH in Hb. apply Ascii.eqb_eq in Hd.
        unfold lower in *. simpl in *. now rewrite Hd, Hb.
      * destruct s1 as [|d s1]; [discriminate|].
        cbn [lower map]. intros [= Hd Hs].
        exists [d], s1. repeat split.
        -- exists d. now rewrite Hd, Ascii.eqb_refl.
        -- now apply IH.
Qed.

Lemma denote_lit w s1 s2 :
  denote true (lit w) s1 s2 <-> lower s1 = lower (py w).
Proof. apply denote_lit_chars. Qed.

(** An optional part in the middle of a sequence is there or is not. *)
Lemma denote_seq_opt ic r1 r2 r3 s1 s2 :
  denote ic (Seq r1 (Seq (Opt r2) r3)) s1 s2 <->
  denote ic (Seq r1 (Seq r2 r3)) s1 s2 \/ denote ic (Seq r1 r3) s1 s2.
Proof.
  cbn [denote]. split.
  - intros (a & b & -> & Ha & (a1 & b1 & -> & [H2| ->] & H3)).
    + left. exists a, (a1 ++ b1). repeat split; auto. now exists a1, b1.
    + right. exists a, b1. auto.
  - intros [(a & b & -> & Ha & (a1 & b1 & -> & H2 & H3))
           |(a & b & -> & Ha & H3)].
    + exists a, (a1 ++ b1). repeat split; auto.
      exists a1, b1. auto.
    + exists a, b. repeat split; auto. exists [], b. auto.
Qed.

(** The alternatives of [RE_FILTER] are the labels of the list, up to
    case. *)
Lemma LABEL_ALTS_is_label lab s2 :
  denote true LABEL_ALTS lab s2 <-> is_label lab = true.
Proof.
  unfold LABEL_ALTS, is_label, LABELS. cbn [alts existsb].
  cbn [denote]. fold (denote true).
  rewrite !orb_true_iff, !str_eqb_eq.
  change (exists a b, lab = a ++ b
            /\ (exists d, a = [d] /\ chr_matches true "E" d = true)
            /\ (exists a0 b0, b = a0 ++ b0
                  /\ ((exists d, a0 = [d] /\ chr_matches true "-" d = true)
                      \/ a0 = [])
                  /\ denote true (lit "Mail") b0 s2))
    with (denote true (Seq (Chr "E") (Seq (Opt (Chr "-")) (lit "Mail")))
            lab s2).
  rewrite denote_seq_opt.
  change (Seq (Chr "E") (Seq (Chr "-") (lit "Mail"))) with (lit "E-Mail").
  change (Seq (Chr "E") (lit "Mail")) with (lit "EMail").
  rewrite !denote_lit.
  intuition discriminate.
Qed.

(** ** Lines *)

Lemma splitlines_aux_no_break n : forall s cur line,
  List.length s <= n ->
  no_break cur ->
  In line (splitlines_aux cur s) ->
  no_break line.
Proof.
  unfold no_break.
  induction n as [|n IH]; intros s cur line Hn Hcur Hin.
  - destruct s; [|simpl in Hn; lia]. simpl in Hin.
    destruct cur; [contradiction|].
    destruct Hin as [<-|[]]. now apply Forall_rev.
  - destruct s as [|c s]; simpl in Hin.
    + destruct cur; [contradiction|].
      destruct Hin as [<-|[]]. now apply Forall_rev.
    + simpl in Hn. destruct (is_linebreak c) eqn:Hc.
      * destruct s as [|d s].
        -- destruct Hin as [<-|[]]. now apply Forall_rev.
        -- destruct (Ascii.eqb c CR && Ascii.eqb d LF);
             destruct Hin as [<-|Hin]; try now apply Forall_rev.
           ++ apply (IH s [] line);
                [simpl in Hn; lia | constructor | exact Hin].
           ++ apply (IH (d :: s) [] line); [lia | constructor | exact Hin].
      * apply (IH s (c :: cur) line); [lia | now constructor | exact Hin].
Qed.

(** No line of [splitlines] holds a line boundary. *)
Lemma splitlines_no_break s line : In line (splitlines s) -> no_break line.
Proof.
  apply (@splitlines_aux_no_break (List.length s)); [lia | constructor].
Qed.

Lemma any_line_matches_iff lines :
  any_line_matches lines = true <->
  exists line, In line lines /\ matched (re_match RE_FILTER line) = true.
Proof.
  induction lines as [|l lines IH]; simpl.
  - split; [discriminate | now intros (? & [] & _)].
  - destruct (matched (re_match RE_FILTER l)) eqn:M.
    + split; [eauto | reflexivity].
    + rewrite IH. split.
      * intros (line & Hin & Hm). eauto.
      * intros (line & [<-|Hin] & Hm); [congruence | eauto].
Qed.

(** ** The structural text filter *)

(** What [RE_FILTER.match] accepts: non-word characters, a label, and the
    end of the text or one last line feed. *)
Lemma RE_FILTER_matches line :
  matched (re_match RE_FILTER line) = true <->
  exists pre lab rest,
    line = pre ++ lab ++ rest /\ forallb non_word pre = true
    /\ is_label lab = true /\ (rest = [] \/ rest = [LF]).
Proof.
  rewrite re_match_matched. unfold RE_FILTER. cbn [pattern ignorecase denote].
  split.
  - intros (s1 & s2 & -> & a & b & -> & (_ & Ha) & lab & e & ->
            & Hlab & -> & Hrest).
    rewrite app_nil_r in *. apply LABEL_ALTS_is_label in Hlab.
    exists a, lab, s2. rewrite <- app_assoc. auto.
  - intros (pre & lab & rest & -> & Hpre & Hlab & Hrest).
    exists (pre ++ lab), rest. rewrite <- app_assoc. split; [reflexivity|].
    exists pre, lab. repeat split; [lia | exact Hpre |].
    exists lab, []. rewrite app_nil_r. repeat split; auto.
    now apply LABEL_ALTS_is_label.
Qed.

(** On a line of [splitlines] the match ends the line. *)
Lemma RE_FILTER_matches_line line :
  no_break line ->
  (matched (re_match RE_FILTER line) = true <-> label_line line).
Proof.
  intros Hnb. rewrite RE_FILTER_matches. unfold label_line. split.
  - intros (pre & lab & rest & -> & Hpre & Hlab & [->| ->]).
    + exists pre, lab. rewrite app_nil_r. auto.
    + exfalso. unfold no_break in Hnb.
      rewrite !Forall_app in Hnb. destruct Hnb as (_ & _ & Hlf).
      inversion Hlf as [|? ? Hc _]. discriminate Hc.
  - intros (pre & lab & -> & Hpre & Hlab).
    exists pre, lab, []. rewrite app_nil_r. auto.
Qed.

Lemma textfilter_usable e s :
  effective_text e = Some s ->
  text_chars_test (Some s) = true ->
  textfilter e = any_line_matches (splitlines s).
Proof. intros He Hu. unfold textfilter. now rewrite He, Hu. Qed.

Lemma non_word_prefix pre :
  forallb non_word pre = true -> existsb is_word pre = true -> False.
Proof.
  induction pre as [|c pre IH]; simpl; [discriminate|].
  unfold non_word at 1. destruct (is_word c); simpl; [discriminate|].
  exact IH.
Qed.

(** C9: for a block with usable text, [textfilter] rejects exactly when
    some line of the effective text is made of non-word characters
    followed by one of the labels, up to case, at the end of the line; when
    on every line a word character stands before whatever label ends the
    line, the block is not rejected. *)
Theorem C9_label_lines e s :
  effective_text e = Some s ->
  text_chars_test (Some s) = true ->
  (textfilter e = true <->
   exists line, In line (splitlines s) /\ label_line line)
  /\ ((forall line pre lab,
         In line (splitlines s) -> line = pre ++ lab ->
         is_label lab = true -> existsb is_word pre = true) ->
      textfilter e = false).
Proof.
  intros He Hu.
  assert (Hiff : textfilter e = true <->
                 exists line, In line (splitlines s) /\ label_line line).
  { rewrite (textfilter_usable e He Hu), any_line_matches_iff. split.
    - intros (line & Hin & Hm). exists line. split; [exact Hin|].
      apply RE_FILTER_matches_line; [|exact Hm].
      now apply splitlines_no_break with s.
    - intros (line & Hin & Hl). exists line. split; [exact Hin|].
      apply RE_FILTER_matches_line; [|exact Hl].
      now apply splitlines_no_break with s. }
  split; [exact Hiff|].
  intros Hword. destruct (textfilter e) eqn:T; [|reflexivity].
  exfalso. destruct Hiff as [Hfwd _].
  destruct (Hfwd eq_refl) as (line & Hin & pre & lab & Hline & Hpre & Hlab).
  apply (non_word_prefix pre Hpre). exact (Hword line pre lab Hin Hline Hlab).
Qed.

Lemma C9_label_lines_witness :
  textfilter (block "Share this >> E-MAIL") = false
  /\ (textfilter (mkElement None (Some (py "  -> e-mail")) []) = true <->
      exists line,
        In line (splitlines (py "  -> e-mail")) /\ label_line line).
Proof.
  split.
  - apply (@C9_label_lines (block "Share this >> E-MAIL")
             (py "Share this >> E-MAIL") eq_refl eq_refl).
    intros line pre lab [<-|[]] Hline Hlab.
    destruct pre as [|c pre]; [|injection Hline as <- _; reflexivity].
    simpl in Hline. subst lab. discriminate Hlab.
  - apply (@C9_label_lines (mkElement None (Some (py "  -> e-mail")) [])
             (py "  -> e-mail") eq_refl eq_refl).
Defined.

(** C2 as stated fails: the match starts at the beginning of the line, and
    the words before the label keep "Share on Facebook" from being
    rejected. *)
Lemma C2_share_on_facebook_not_rejected :
  textfilter (block "Share on Facebook") <> true.
Proof. vm_compute. discriminate. Qed.

(** A text without line boundary is one line, with what was read before
    it. *)
Lemma splitlines_aux_plain w : forall cur,
  no_break w -> cur <> [] \/ w <> [] ->
  splitlines_aux cur w = [rev cur ++ w].
Proof.
  induction w as [|c w IH]; intros cur Hw Hne.
  - simpl. rewrite app_nil_r. destruct cur; [|reflexivity].
    destruct Hne as [H|H]; contradiction.
  - inversion Hw as [|? ? Hc Hw']; subst. simpl. rewrite Hc.
    rewrite IH; [|exact Hw' | left; discriminate].
    simpl. now rewrite <- app_assoc.
Qed.

(** When a text ends with characters [w] that hold no line boundary, its
    last line is [w] after the characters that follow the last boundary. *)
Lemma splitlines_aux_last_line w :
  no_break w -> w <> [] ->
  forall n pre cur,
    List.length pre <= n ->
    exists p,
      In (p ++ w) (splitlines_aux cur (pre ++ w))
      /\ (forall c, In c p -> In c cur \/ In c pre).
Proof.
  intros Hw Hne.
  assert (Hplain : forall cur,
            exists p, In (p ++ w) (splitlines_aux cur w)
                      /\ (forall c, In c p -> In c cur)).
  { intros cur. exists (rev cur). split.
    - rewrite splitlines_aux_plain by auto. now left.
    - intros c Hc. now apply in_rev. }
  induction n as [|n IH]; intros pre cur Hn.
  - destruct pre; [|simpl in Hn; lia]. simpl.
    destruct (Hplain cur) as (p & Hin & Hp). exists p. auto.
  - destruct pre as [|c pre].
    + simpl. destruct (Hplain cur) as (p & Hin & Hp). exists p. auto.
    + simpl in Hn. cbn [app splitlines_aux].
      destruct (is_linebreak c) eqn:Hc.
      * destruct pre as [|d pre].
        -- cbn [app]. destruct w as [|x w]; [contradiction|].
           inversion Hw as [|? ? Hx _]; subst.
           assert (Hlf : Ascii.eqb x LF = false).
           { destruct (Ascii.eqb_spec x LF) as [->|]; [|reflexivity].
             discriminate Hx. }
           rewrite Hlf, andb_false_r.
           destruct (Hplain []) as (p & Hin & Hp). exists p. split.
           ++ right. exact Hin.
           ++ intros c' Hc'. destruct (Hp c' Hc').
        -- cbn [app].
           destruct (Ascii.eqb c CR && Ascii.eqb d LF).
           ++ destruct (IH pre []) as (p & Hin & Hp);
                [simpl in Hn; lia|].
              exists p. split; [right; exact Hin|].
              intros c' Hc'. destruct (Hp c' Hc') as [[]|H].
              right. right. now right.
           ++ destruct (IH (d :: pre) []) as (p & Hin & Hp); [lia|].
              exists p. split; [right; exact Hin|].
              intros c' Hc'. destruct (Hp c' Hc') as [[]|H].
              right. now right.
      * destruct (IH pre (c :: cur)) as (p & Hin & Hp); [lia|].
        exists p. split; [exact Hin|].
        intros c' Hc'. destruct (Hp c' Hc') as [[<-|H]|H].
        -- right. now left.
        -- now left.
        -- right. now right.
Qed.

(** A text that ends with a label after non-word characters only is
    rejected. *)
Lemma textfilter_label_after_non_words pre lab tl ch :
  forallb non_word pre = true ->
  is_label lab = true -> no_break lab ->
  forallb is_space lab = false ->
  textfilter (mkElement (Some (pre ++ lab)) tl ch) = true.
Proof.
  intros Hpre Hlab Hnb Hsp.
  assert (Hne : lab <> []) by (intros ->; discriminate Hsp).
  assert (He : effective_text (mkElement (Some (pre ++ lab)) tl ch)
               = Some (pre ++ lab))
    by (unfold effective_text; simpl; now destruct tl).
  assert (Hu : text_chars_test (Some (pre ++ lab)) = true).
  { unfold text_chars_test.
    destruct (pre ++ lab) as [|x l] eqn:E.
    - apply app_eq_nil in E as [_ E]. contradiction.
    - cbn [List.length Nat.eqb orb isspace]. rewrite <- E.
      now rewrite forallb_app, Hsp, andb_false_r. }
  rewrite (textfilter_usable _ He Hu). apply any_line_matches_iff.
  destruct (@splitlines_aux_last_line lab Hnb Hne (List.length pre) pre [])
    as (p & Hin & Hp); [lia|].
  exists (p ++ lab). split; [exact Hin|].
  apply RE_FILTER_matches_line.
  - now apply splitlines_no_break with (pre ++ lab).
  - exists p, lab. repeat split; auto.
    apply forallb_forall. intros c Hc.
    destruct (Hp c Hc) as [[]|Hc'].
    rewrite forallb_forall in Hpre. now apply Hpre.
Qed.

(** C2, amended: a block whose only text is the label "Facebook", alone or
    preceded only by non-word characters, whichever they are, is rejected;
    a block whose only text is "Share on Facebook" is not. *)
Theorem C2_facebook_label_rejected :
  (forall pre,
     forallb non_word pre = true ->
     textfilter (mkElement (Some (pre ++ py "Facebook")) None []) = true)
  /\ textfilter (block "Facebook") = true
  /\ textfilter (block "Share on Facebook") = false.
Proof.
  assert (H : forall pre,
             forallb non_word pre = true ->
             textfilter (mkElement (Some (pre ++ py "Facebook")) None [])
             = true).
  { intros pre Hpre. apply textfilter_label_after_non_words.
    - exact Hpre.
    - reflexivity.
    - repeat constructor.
    - reflexivity. }
  split; [exact H|]. split; [|reflexivity].
  exact (H [] eq_refl).
Qed.

Lemma C2_facebook_label_rejected_witness :
  textfilter (block ">> Facebook") = true.
Proof.
  exact (proj1 C2_facebook_label_rejected (py ">> ") eq_refl).
Defined.

(** The usable-text test answers [False] exactly on no text, the empty
    text and the texts made of whitespace only. *)
Lemma text_chars_test_false_iff o :
  text_chars_test o = false <->
  o = None \/ o = Some [] \/
  exists s, o = Some s /\ s <> [] /\ forallb is_space s = true.
Proof.
  destruct o as [s|]; simpl.
  - destruct s as [|c s]; simpl.
    + split; auto.
    + destruct (is_space c && forallb is_space s) eqn:E; simpl.
      * split; [|reflexivity]. intros _. right. right.
        exists (c :: s). repeat split; [discriminate | exact E].
      * split; [discriminate|].
        intros [H|[H|(s' & [= <-] & _ & H)]]; try discriminate.
        simpl in H. congruence.
  - split; auto.
Qed.

(** Without usable text the block is filtered out before any line is
    looked at. *)
Lemma textfilter_no_usable_text e :
  text_chars_test (effective_text e) = false -> textfilter e = true.
Proof. intros H. unfold textfilter. now rewrite H. Qed.

(** C7, at a text made of one control character that is not whitespace:
    [text_chars_test] finds usable text and [textfilter] keeps the block. *)
Theorem C7_control_character_usable :
  forallb is_control [DEL] = true
  /\ text_chars_test (Some [DEL]) = true
  /\ textfilter (mkElement (Some [DEL]) None []) = false.
Proof. repeat split; vm_compute; reflexivity. Qed.

(** ** The language gate *)

(** C6: without the detector, a call with a target language does not
    reject and emits one warning; a call without a target language does
    not reject and emits nothing, with or without the detector. *)
Theorem C6_language_gate_fail_open cld3 temp_text temp_comments docmeta :
  LANGID_FLAG cld3 = false ->
  (forall target,
     language_filter cld3 temp_text temp_comments (Some target) docmeta
     = (false,
        [mkLog WARNING "Detector not installed, no language detection run"
           []])
     /\ List.length
          (filter is_warning
             (snd (language_filter cld3 temp_text temp_comments
                     (Some target) docmeta))) = 1)
  /\ (forall detector,
        language_filter detector temp_text temp_comments None docmeta
        = (false, [])).
Proof.
  intros Hflag. destruct cld3 as [get_language|]; [discriminate|].
  split; [intros target; split; reflexivity | reflexivity].
Qed.

Lemma C6_language_gate_fail_open_witness :
  language_filter None (py "Der schnelle braune Fuchs") []
    (Some (py "en")) (mkDocMeta (py "doc-1") (py "https://example.org/"))
  = (false,
     [mkLog WARNING "Detector not installed, no language detection run" []]).
Proof.
  exact (proj1 (proj1 (@C6_language_gate_fail_open None
                         (py "Der schnelle braune Fuchs") []
                         (mkDocMeta (py "doc-1") (py "https://example.org/"))
                         eq_refl) (py "en"))).
Defined.

(** ** Tokens of the fingerprint *)

Lemma span_word_app s : s = fst (span_word s) ++ snd (span_word s).
Proof.
  induction s as [|c s IH]; simpl; [reflexivity|].
  destruct (is_word c); [|reflexivity].
  destruct (span_word s) as [a b]. simpl in *. now rewrite <- IH.
Qed.

(** A greedy repetition of [\w] takes the whole run, or fails when the
    run is too short. *)
Lemma many_word_span s : forall n,
  many n WordC s (fun r => Some r)
  = if Nat.leb n (List.length (fst (span_word s)))
    then Some (snd (span_word s)) else None.
Proof.
  induction s as [|c s IH]; intros n; simpl.
  - now destruct n.
  - destruct (is_word c) eqn:Hc.
    + rewrite IH. destruct (span_word s) as [a b]. simpl.
      destruct n as [|n]; simpl.
      * reflexivity.
      * now destruct (Nat.leb n (List.length a)).
    + now destruct n.
Qed.

Lemma one_run (r : pystr) :
  r <> [] -> match r with [] => [] | x :: l => [x :: l] end = [r].
Proof. now destruct r. Qed.

Lemma word_runs_aux_span s : forall cur,
  word_runs_aux cur s
  = match rev cur ++ fst (span_word s) with
    | [] => []
    | r => [r]
    end ++ word_runs_aux [] (snd (span_word s)).
Proof.
  induction s as [|c s IH]; intros cur.
  - simpl. rewrite !app_nil_r. destruct cur as [|x cur]; [reflexivity|].
    simpl. rewrite one_run; [reflexivity|].
    intros E. apply app_eq_nil in E as [_ E]. discriminate.
  - simpl. destruct (is_word c) eqn:Hc.
    + rewrite IH. destruct (span_word s) as [a b]. simpl.
      now rewrite <- app_assoc.
    + simpl. rewrite Hc, app_nil_r. destruct cur as [|x cur]; [reflexivity|].
      simpl. rewrite one_run; [reflexivity|].
      intros E. apply app_eq_nil in E as [_ E]. discriminate.
Qed.

Lemma word_runs_span s :
  word_runs s
  = match fst (span_word s) with [] => [] | r => [r] end
    ++ word_runs (snd (span_word s)).
Proof. unfold word_runs. now rewrite word_runs_aux_span at 1. Qed.

(** Dropping the first character of a text whose first run is too short
    loses no token. *)
Lemma word_runs_skip c s :
  is_word c = false -> word_runs (c :: s) = word_runs s.
Proof. intros Hc. unfold word_runs. simpl. now rewrite Hc. Qed.

Lemma short_run_skip c s :
  Nat.leb 5 (List.length (fst (span_word (c :: s)))) = false ->
  filter long_enough (word_runs (c :: s)) = filter long_enough (word_runs s).
Proof.
  intros Hshort. destruct (is_word c) eqn:Hc.
  - apply Nat.leb_gt in Hshort.
    rewrite (word_runs_span (c :: s)), (word_runs_span s).
    cbn [span_word] in *. rewrite Hc in *.
    destruct (span_word s) as [a b]. cbn [fst snd] in *.
    rewrite !filter_app. f_equal.
    assert (Hc_a : long_enough (c :: a) = false)
      by (apply Nat.leb_gt; exact Hshort).
    cbn [filter]. rewrite Hc_a.
    destruct a as [|x a]; [reflexivity|].
    assert (Hx_a : long_enough (x :: a) = false)
      by (apply Nat.leb_gt; cbn [List.length] in *; lia).
    cbn [filter]. now rewrite Hx_a.
  - now rewrite word_runs_skip.
Qed.

(** [re.findall] with [\w{5,}] returns the maximal runs of word
    characters of length at least 5, from left to right. *)
Lemma findall_from_word_runs fuel : forall s,
  List.length s < fuel ->
  findall_from fuel RE_TOKEN s = filter long_enough (word_runs s).
Proof.
  induction fuel as [|fuel IH]; intros s Hfuel; [lia|].
  cbn [findall_from]. unfold re_match, RE_TOKEN.
  cbn [pattern ignorecase exec]. rewrite many_word_span.
  destruct (Nat.leb_spec 5 (List.length (fst (span_word s)))) as [Hlen|Hlen].
  - pose proof (span_word_app s) as Happ.
    destruct (span_word s) as [a b] eqn:Hspan. cbn [fst snd] in *.
    assert (Hn : List.length s - List.length b = List.length a)
      by (rewrite Happ, length_app; lia).
    assert (Hlong : long_enough a = true) by (apply Nat.leb_le; exact Hlen).
    rewrite Hn.
    destruct (List.length a) as [|n] eqn:Ha; [lia|].
    rewrite <- Ha.
    replace (firstn (List.length a) s) with a
      by (rewrite Happ, firstn_app, firstn_all, Nat.sub_diag, firstn_O;
          now rewrite app_nil_r).
    rewrite IH by (rewrite Happ, length_app in Hfuel; lia).
    rewrite (word_runs_span s), Hspan. cbn [fst snd].
    destruct a as [|x a]; [discriminate|].
    rewrite filter_app. cbn [filter]. now rewrite Hlong.
  - destruct s as [|c s]; [reflexivity|].
    rewrite IH by (cbn [List.length] in Hfuel; lia).
    symmetry. apply short_run_skip. apply Nat.leb_gt. exact Hlen.
Qed.

Lemma re_findall_tokens s :
  re_findall RE_TOKEN (lower s) = qualifying_tokens s.
Proof.
  unfold re_findall, qualifying_tokens.
  apply findall_from_word_runs. lia.
Qed.

Lemma content_fingerprint_spec s : content_fingerprint s = fingerprint_spec s.
Proof.
  unfold content_fingerprint, fingerprint_spec. now rewrite re_findall_tokens.
Qed.

(** Lowercasing keeps word characters word characters and the others
    not. *)
Lemma is_word_lower c : is_word (lower_char c) = is_word c.
Proof. destruct c as [[] [] [] [] [] [] [] []]; reflexivity. Qed.

Lemma forallb_word_lower s : forallb is_word (lower s) = forallb is_word s.
Proof.
  induction s as [|c s IH]; simpl; [reflexivity|].
  now rewrite is_word_lower, IH.
Qed.

(** Every run that [word_runs] reports is a piece of the text made of
    word characters. *)
Lemma word_runs_aux_sub s : forall cur r,
  (forall c, In c cur -> is_word c = true) ->
  In r (word_runs_aux cur s) ->
  exists a b, rev cur ++ s = a ++ r ++ b /\ forallb is_word r = true.
Proof.
  assert (Hrev : forall cur, (forall c, In c cur -> is_word c = true) ->
                             forallb is_word (rev cur) = true).
  { intros cur H. apply forallb_forall. intros c Hc. apply H.
    now apply in_rev. }
  induction s as [|c s IH]; intros cur r Hcur Hin; simpl in Hin.
  - destruct cur as [|x cur]; [contradiction|].
    destruct Hin as [<-|[]]. exists [], []. rewrite !app_nil_r. auto.
  - destruct (is_word c) eqn:Hc.
    + destruct (IH (c :: cur) r) as (a & b & E & Hr); auto.
      * intros d [<-|Hd]; auto.
      * exists a, b. split; [|exact Hr].
        rewrite <- E. simpl. now rewrite <- app_assoc.
    + destruct cur as [|x cur].
      * destruct (IH [] r) as (a & b & E & Hr); auto.
        exists (c :: a), b. simpl in *. now rewrite E.
      * destruct Hin as [<-|Hin].
        -- exists [], (c :: s). auto.
        -- destruct (IH [] r) as (a & b & E & Hr); auto.
           exists (rev (x :: cur) ++ c :: a), b. simpl in E.
           rewrite E, <- app_assoc. auto.
Qed.

Lemma word_runs_sub s r :
  In r (word_runs s) ->
  exists a b, s = a ++ r ++ b /\ forallb is_word r = true.
Proof.
  intros Hin. apply (@word_runs_aux_sub s [] r) in Hin; [exact Hin|].
  intros c [].
Qed.

Lemma no_long_run_tokens s : no_long_run s -> qualifying_tokens s = [].
Proof.
  intros Hs. unfold qualifying_tokens.
  assert (H : forall r, In r (word_runs (lower s)) -> long_enough r = false).
  { intros r Hin. apply word_runs_sub in Hin as (a & b & E & Hr).
    unfold lower in E. apply map_eq_app in E as (a' & t & -> & <- & E).
    apply map_eq_app in E as (r' & b' & -> & <- & <-).
    fold (lower r') in *. rewrite forallb_word_lower in Hr.
    apply Nat.leb_gt. unfold lower. rewrite length_map.
    now apply (Hs a' r' b'). }
  induction (word_runs (lower s)) as [|r l IH]; [reflexivity|].
  cbn [filter]. fold (long_enough r). rewrite (H r) by now left.
  apply IH. intros r' Hr'. apply H. now right.
Qed.

(** C10: a text without a run of 5 or more word characters has the
    fingerprint of the empty text: the base64 text of the SHA-1 digest of
    no bytes at all. *)
Theorem C10_no_token_fingerprint s :
  no_long_run s ->
  content_fingerprint s = decode (Base64.b64encode (SHA1.sha1 []))
  /\ content_fingerprint s = py "2jmj7l5rSw0yVb/vlWAYkK/YBwk=".
Proof.
  intros Hs.
  assert (E : content_fingerprint s = decode (Base64.b64encode (SHA1.sha1 []))).
  { rewrite content_fingerprint_spec. unfold fingerprint_spec.
    now rewrite (no_long_run_tokens Hs). }
  split; [exact E|]. rewrite E. vm_compute. reflexivity.
Qed.

Lemma in_tails_app a t : In t (tails (a ++ t)).
Proof.
  induction a as [|c a IH]; simpl.
  - destruct t; left; reflexivity.
  - right. exact IH.
Qed.

Lemma span_word_prefix w b :
  forallb is_word w = true ->
  List.length w <= List.length (fst (span_word (w ++ b))).
Proof.
  induction w as [|c w IH]; simpl; [lia|].
  intros H. apply andb_true_iff in H as [Hc Hw]. rewrite Hc.
  specialize (IH Hw). destruct (span_word (w ++ b)). simpl in *. lia.
Qed.

Lemma all_runs_short_sound s : all_runs_short s = true -> no_long_run s.
Proof.
  intros H a w b -> Hw. unfold all_runs_short in H.
  rewrite forallb_forall in H.
  specialize (H (w ++ b) (in_tails_app a (w ++ b))).
  apply Nat.ltb_lt in H. pose proof (span_word_prefix w b Hw). lia.
Qed.

Lemma C10_no_token_fingerprint_witness :
  content_fingerprint (py "Hi, you & me - ok?! (2024)")
  = py "2jmj7l5rSw0yVb/vlWAYkK/YBwk=".
Proof.
  apply (@C10_no_token_fingerprint (py "Hi, you & me - ok?! (2024)")).
  apply all_runs_short_sound. vm_compute. reflexivity.
Defined.

(** ** Digest and base64 text *)

Lemma be_bytes_length n x : List.length (SHA1.be_bytes n x) = n.
Proof. induction n as [|n IH]; simpl; [reflexivity | now rewrite IH]. Qed.

Lemma be_bytes_nonneg n x : Forall (fun y => (0 <= y)%Z) (SHA1.be_bytes n x).
Proof.
  induction n as [|n IH]; simpl; constructor; [|exact IH].
  apply Z.land_nonneg. right. lia.
Qed.

(** The digest has 20 bytes. *)
Lemma sha1_length msg : List.length (SHA1.sha1 msg) = 20.
Proof.
  unfold SHA1.sha1, SHA1.digest_of.
  now rewrite !length_app, !be_bytes_length.
Qed.

Lemma sha1_nonneg msg : Forall (fun y => (0 <= y)%Z) (SHA1.sha1 msg).
Proof.
  unfold SHA1.sha1, SHA1.digest_of.
  repeat (apply Forall_app; split); apply be_bytes_nonneg.
Qed.

Lemma alphabet_base64 i : (0 <= i)%Z -> base64_char (Base64.alphabet i) = true.
Proof.
  intros Hi. unfold Base64.alphabet, base64_char.
  destruct (Z.ltb_spec i 26); [|destruct (Z.ltb_spec i 52);
    [|destruct (Z.ltb_spec i 62); [|destruct (Z.eqb_spec i 62)]]];
    repeat match goal with
      | |- context [(?a <=? ?b)%Z] => destruct (Z.leb_spec a b)
      | |- context [(?a =? ?b)%Z] => destruct (Z.eqb_spec a b)
      end; simpl; try reflexivity; lia.
Qed.

(** Three-step induction on lists, as [b64encode] reads them. *)
Lemma list_ind3 (A : Type) (P : list A -> Prop) :
  P [] -> (forall x, P [x]) -> (forall x y, P [x; y]) ->
  (forall x y z l, P l -> P (x :: y :: z :: l)) ->
  forall l, P l.
Proof.
  intros H0 H1 H2 H3.
  assert (H : forall n l, List.length l <= n -> P l).
  { induction n as [|n IH]; intros l Hl.
    - destruct l; [exact H0 | simpl in Hl; lia].
    - destruct l as [|x [|y [|z l]]]; auto.
      apply H3. apply IH. simpl in Hl. lia. }
  intros l. now apply (H (List.length l)).
Qed.

Lemma b64encode_length b :
  List.length (Base64.b64encode b) = 4 * ((List.length b + 2) / 3).
Proof.
  induction b as [| x | x y | x y z l IH] using list_ind3;
    try reflexivity.
  cbn [Base64.b64encode List.length]. rewrite IH.
  replace (S (S (S (List.length l))) + 2) with (List.length l + 2 + 1 * 3)
    by lia.
  rewrite Nat.div_add by lia. lia.
Qed.

Lemma b64encode_chars b :
  Forall (fun y => (0 <= y)%Z) b ->
  Forall (fun x => base64_char x = true) (Base64.b64encode b).
Proof.
  assert (Hs : forall x k, (0 <= x)%Z -> (0 <= Z.shiftr x k)%Z)
    by (intros; now apply Z.shiftr_nonneg).
  assert (Hl : forall x k, (0 <= x)%Z -> (0 <= Z.shiftl (Z.land x k) 4)%Z)
    by (intros; apply Z.shiftl_nonneg, Z.land_nonneg; auto).
  assert (Hl2 : forall x k, (0 <= x)%Z -> (0 <= Z.shiftl (Z.land x k) 2)%Z)
    by (intros; apply Z.shiftl_nonneg, Z.land_nonneg; auto).
  induction b as [| x | x y | x y z l IH] using list_ind3; intros Hb.
  - constructor.
  - inversion Hb; subst. cbn [Base64.b64encode].
    repeat constructor; try apply alphabet_base64; auto.
  - inversion Hb as [|? ? Hx Hb']; subst. inversion Hb'; subst.
    cbn [Base64.b64encode].
    repeat constructor; try apply alphabet_base64; auto.
    apply Z.lor_nonneg; auto.
  - inversion Hb as [|? ? Hx Hb1]; subst.
    inversion Hb1 as [|? ? Hy Hb2]; subst.
    inversion Hb2 as [|? ? Hz Hb3]; subst.
    cbn [Base64.b64encode].
    repeat (constructor; [apply alphabet_base64|]); auto.
    + apply Z.lor_nonneg; auto.
    + apply Z.lor_nonneg; auto.
    + apply Z.land_nonneg; auto.
Qed.

(** The base64 text of 20 bytes ends with one [=]. *)
Lemma b64encode_20_padding b d :
  List.length b = 20 ->
  last (Base64.b64encode b) d = Base64.pad_char.
Proof.
  intros H.
  do 20 (destruct b as [|? b]; [discriminate H|]).
  destruct b; [reflexivity | discriminate H].
Qed.

Lemma last_map (A B : Type) (f : A -> B) l d :
  last (map f l) (f d) = f (last l d).
Proof.
  induction l as [|x l IH]; [reflexivity|].
  destruct l; [reflexivity|]. exact IH.
Qed.

Lemma decode_base64_char x :
  base64_char x = true ->
  base64_char (Z.of_N (ord (ascii_of_N (Z.to_N x)))) = true.
Proof.
  intros H. assert (Hx : (43 <= x <= 122)%Z).
  { unfold base64_char in H.
    repeat match type of H with
      | context [(?a <=? ?b)%Z] => destruct (Z.leb_spec a b)
      | context [(?a =? ?b)%Z] => destruct (Z.eqb_spec a b)
      end; simpl in H; try discriminate; lia. }
  unfold ord. rewrite N_ascii_embedding by lia.
  rewrite Z2N.id by lia. exact H.
Qed.

(** C4: the fingerprint is the base64 text of the SHA-1 digest of the
    qualifying tokens of the lowercased text (its maximal runs of at least
    5 word characters, in order) joined by single spaces.  The digest has
    20 bytes; the text has 28 characters of the base64 alphabet, the last
    one the padding [=], hence no line break; equal inputs give equal
    fingerprints. *)
Theorem C4_fingerprint s :
  content_fingerprint s
  = decode (Base64.b64encode
              (SHA1.sha1 (encode (join (py " ") (qualifying_tokens s)))))
  /\ List.length (SHA1.sha1 (encode (join (py " ") (qualifying_tokens s))))
     = 20
  /\ List.length (content_fingerprint s) = 28
  /\ last (content_fingerprint s) " "%char = "="%char
  /\ Forall (fun c => base64_char (Z.of_N (ord c)) = true)
       (content_fingerprint s)
  /\ (forall s', s' = s -> content_fingerprint s' = content_fingerprint s).
Proof.
  rewrite content_fingerprint_spec. unfold fingerprint_spec.
  set (digest := SHA1.sha1 (encode (join (py " ") (qualifying_tokens s)))).
  assert (Hlen : List.length digest = 20) by apply sha1_length.
  split; [|split; [|split; [|split; [|split]]]].
  - reflexivity.
  - exact Hlen.
  - unfold decode. now rewrite length_map, b64encode_length, Hlen.
  - unfold decode.
    change " "%char with ((fun x => ascii_of_N (Z.to_N x)) 32%Z).
    now rewrite last_map, b64encode_20_padding.
  - unfold decode. apply Forall_map.
    eapply Forall_impl; [|apply b64encode_chars, sha1_nonneg].
    intros x Hx. now apply decode_base64_char.
  - intros s' ->. apply content_fingerprint_spec.
Qed.

(** ** Texts with the same tokens *)

Lemma word_runs_aux_run w t : forall cur,
  forallb is_word w = true ->
  word_runs_aux cur (w ++ t) = word_runs_aux (rev w ++ cur) t.
Proof.
  induction w as [|c w IH]; intros cur H; [reflexivity|].
  simpl in H. apply andb_true_iff in H as [Hc Hw].
  simpl. rewrite Hc, IH by exact Hw. now rewrite <- app_assoc.
Qed.

Lemma word_runs_aux_sep p t :
  forallb non_word p = true ->
  word_runs_aux [] (p ++ t) = word_runs_aux [] t.
Proof.
  induction p as [|c p IH]; intros H; [reflexivity|].
  simpl in H. apply andb_true_iff in H as [Hc Hp].
  unfold non_word in Hc. apply negb_true_iff in Hc.
  simpl. rewrite Hc. now apply IH.
Qed.

Lemma word_runs_weave rest : forall w,
  is_run w -> well_spaced rest ->
  word_runs (weave w rest) = w :: map snd rest.
Proof.
  unfold word_runs.
  induction rest as [|[p w'] rest IH]; intros w [Hne Hw] Hrest.
  - simpl. rewrite <- (app_nil_r w) at 1.
    rewrite word_runs_aux_run by exact Hw. rewrite app_nil_r. simpl.
    destruct (rev w) eqn:E.
    + apply (f_equal (@rev ascii)) in E. rewrite rev_involutive in E.
      contradiction.
    + rewrite <- E. now rewrite rev_involutive.
  - inversion Hrest as [|? ? [[Hpne Hp] Hw'] Hrest']; subst. simpl in *.
    rewrite word_runs_aux_run by exact Hw. rewrite app_nil_r.
    destruct p as [|c p]; [contradiction|].
    simpl in Hp. apply andb_true_iff in Hp as [Hc Hp].
    unfold non_word in Hc. apply negb_true_iff in Hc.
    simpl. rewrite Hc.
    destruct (rev w) eqn:E.
    + apply (f_equal (@rev ascii)) in E. rewrite rev_involutive in E.
      contradiction.
    + rewrite <- E, rev_involutive, word_runs_aux_sep by exact Hp.
      now rewrite IH.
Qed.

(** The tokens of a text whose lowercased form is made of words and
    separators: the words of at least 5 characters. *)
Lemma qualifying_tokens_lowered s w rest :
  lower s = weave w rest -> is_run w -> well_spaced rest ->
  qualifying_tokens s = filter long_enough (w :: map snd rest).
Proof.
  intros E Hw Hrest. unfold qualifying_tokens.
  now rewrite E, word_runs_weave.
Qed.

(** C8 as stated fails: the underscore is punctuation and a word
    character; put for the blank between two qualifying words it joins
    them into one token, and the fingerprint changes. *)
Lemma C8_underscore_joins_words :
  content_fingerprint (py "hello world")
  <> content_fingerprint (py "hello_world").
Proof. vm_compute. discriminate. Qed.

(** C8, amended: texts that lowercase to the same sequence of qualifying
    tokens have the same fingerprint; so have two texts whose lowercased
    forms hold the same words in the same order, whatever non-empty runs
    of non-word characters (whitespace, punctuation other than the
    underscore) stand between the words.  The condition is on the
    lowercased texts, as [str.lower] hands them over. *)
Theorem C8_same_tokens_same_fingerprint :
  (forall s1 s2,
     qualifying_tokens s1 = qualifying_tokens s2 ->
     content_fingerprint s1 = content_fingerprint s2)
  /\ (forall s1 s2 w rest1 rest2,
        lower s1 = weave w rest1 -> lower s2 = weave w rest2 ->
        is_run w -> well_spaced rest1 -> well_spaced rest2 ->
        map snd rest1 = map snd rest2 ->
        content_fingerprint s1 = content_fingerprint s2).
Proof.
  assert (H : forall s1 s2,
             qualifying_tokens s1 = qualifying_tokens s2 ->
             content_fingerprint s1 = content_fingerprint s2).
  { intros s1 s2 E. rewrite !content_fingerprint_spec.
    unfold fingerprint_spec. now rewrite E. }
  split; [exact H|].
  intros s1 s2 w rest1 rest2 E1 E2 Hw H1 H2 E. apply H.
  rewrite (qualifying_tokens_lowered s1 E1 Hw H1).
  rewrite (qualifying_tokens_lowered s2 E2 Hw H2).
  now rewrite E.
Qed.

Lemma C8_same_tokens_same_fingerprint_witness :
  content_fingerprint (py "Hello World! Testing quick")
  = content_fingerprint (py "HELLO,   world ... testing--QUICK")
  /\ content_fingerprint (py "Hello, World! again")
     = content_fingerprint (py "HELLO   world - AGAIN").
Proof.
  destruct C8_same_tokens_same_fingerprint as [Htok Hweave]. split.
  - apply Htok. vm_compute. reflexivity.
  - apply (Hweave (py "Hello, World! again") (py "HELLO   world - AGAIN")
             (py "hello")
             [(py ", ", py "world"); (py "! ", py "again")]
             [(py "   ", py "world"); (py " - ", py "again")]).
    + reflexivity.
    + reflexivity.
    + split; [discriminate | reflexivity].
    + repeat constructor; discriminate.
    + repeat constructor; discriminate.
    + reflexivity.
Defined.

(** * Further properties of the module *)

(** ** The duplicate detector on streams of blocks *)

Lemma remove_key_Forall (P : pystr * Z -> Prop) k l :
  Forall P l -> Forall P (remove_key k l).
Proof.
  induction 1 as [|[k' v'] l Hv _ IH]; simpl; [constructor|].
  destruct (str_eqb k k'); [exact IH | now constructor].
Qed.

Lemma removelast_Forall (P : pystr * Z -> Prop) l :
  Forall P l -> Forall P (removelast l).
Proof.
  induction 1 as [|e l He Hl IH]; simpl; [constructor|].
  destruct l; [constructor | now constructor].
Qed.

Lemma lookup_Forall (P : pystr * Z -> Prop) k l v :
  Forall P l -> lookup k l = Some v -> exists k', P (k', v).
Proof.
  induction l as [|[k' v'] l IH]; simpl; [discriminate|].
  intros Hall Hl. inversion Hall as [|? ? Hv Hrest]; subst.
  destruct (str_eqb k k').
  - injection Hl as <-. now exists k'.
  - now apply IH.
Qed.

Lemma counts_nonneg_stored k c v :
  counts_nonneg c -> stored k c = Some v -> (0 <= v)%Z.
Proof.
  intros H S. destruct (@lookup_Forall _ k _ _ H S) as [k' Hv]. exact Hv.
Qed.

Lemma LRU_get_nonneg k c :
  counts_nonneg c ->
  counts_nonneg (snd (LRU_get k c)) /\ (-1 <= fst (LRU_get k c))%Z.
Proof.
  intros H. rewrite LRU_get_value. unfold counts_nonneg, LRU_get, stored.
  destruct (lookup k (entries c)) as [v|] eqn:E; simpl.
  - pose proof (@counts_nonneg_stored k c v H E) as Hv. split; [|lia].
    constructor; [exact Hv | now apply remove_key_Forall].
  - split; [exact H | lia].
Qed.

Lemma LRU_put_nonneg k v c :
  (0 <= v)%Z -> counts_nonneg c -> counts_nonneg (snd (LRU_put k v c)).
Proof.
  unfold counts_nonneg, LRU_put. intros Hv H.
  destruct (lookup k (entries c)); simpl.
  - constructor; [exact Hv | now apply remove_key_Forall].
  - destruct (Nat.leb _ _); simpl; constructor; auto.
    now apply removelast_Forall.
Qed.

Lemma put_in_cache_nonneg k c :
  counts_nonneg c -> counts_nonneg (snd (put_in_cache k c)).
Proof.
  intros H. unfold put_in_cache, bind.
  destruct (@LRU_get_nonneg k c H) as [H1 Hv].
  destruct (LRU_get k c) as [v c1]. simpl in *.
  destruct (Z.eqb_spec v (-1)); simpl; apply LRU_put_nonneg; auto; lia.
Qed.

Lemma duplicate_test_nonneg trim config e c :
  counts_nonneg c ->
  counts_nonneg (snd (duplicate_test trim e config c)).
Proof.
  intros H.
  destruct (Z.le_gt_cases (Z.of_nat (List.length (normalized trim e)))
              (MIN_DUPLCHECK_SIZE config)) as [Hs|Hl].
  - rewrite duplicate_test_short by exact Hs. simpl.
    now apply put_in_cache_nonneg.
  - rewrite duplicate_test_long by lia. cbv zeta.
    destruct (@LRU_get_nonneg (normalized trim e) c H) as [H1 Hv].
    destruct (_ >? _)%Z; simpl.
    + apply LRU_put_nonneg; [lia | exact H1].
    + now apply put_in_cache_nonneg.
Qed.

Lemma detect_all_snd_cons trim config e rest c :
  snd (detect_all trim (e :: rest) config c)
  = snd (detect_all trim rest config
           (snd (duplicate_test trim e config c))).
Proof.
  cbn [detect_all]. destruct (duplicate_test trim e config c) as [r c1].
  cbn [fst snd]. now destruct (detect_all trim rest config c1).
Qed.

Lemma detect_all_fst_cons trim config e rest c :
  fst (detect_all trim (e :: rest) config c)
  = (fst (duplicate_test trim e config c),
     stored (normalized trim e) (snd (duplicate_test trim e config c)))
    :: fst (detect_all trim rest config
              (snd (duplicate_test trim e config c))).
Proof.
  cbn [detect_all]. destruct (duplicate_test trim e config c) as [r c1].
  cbn [fst snd]. now destruct (detect_all trim rest config c1).
Qed.

(** X1: whatever the blocks and the configuration, the detector never
    stores a negative count; the value [-1], which stands for a miss, is
    never the count of a text. *)
Theorem X1_counts_never_negative trim config blocks : forall c,
  counts_nonneg c ->
  counts_nonneg (snd (detect_all trim blocks config c))
  /\ (forall k,
        stored k (snd (detect_all trim blocks config c)) <> Some (-1)%Z).
Proof.
  assert (H : forall c, counts_nonneg c ->
                        counts_nonneg (snd (detect_all trim blocks config c))).
  { induction blocks as [|e rest IH]; intros c Hc; [exact Hc|].
    rewrite detect_all_snd_cons. apply IH. now apply duplicate_test_nonneg. }
  intros c Hc. split; [now apply H|].
  intros k Hbad. pose proof (@counts_nonneg_stored k _ _ (H c Hc) Hbad). lia.
Qed.

Lemma X1_counts_never_negative_witness :
  counts_nonneg
    (snd (detect_all strip [block "Menu"; block "Read more about this";
                            block "Menu"; empty_block]
            (mkConfig 5 (-3)) seen_cache)).
Proof.
  apply (@X1_counts_never_negative strip (mkConfig 5 (-3))
           [block "Menu"; block "Read more about this"; block "Menu";
            empty_block] seen_cache).
  repeat constructor; vm_compute; discriminate.
Defined.

Lemma duplicate_test_step_any trim config e c :
  (0 <= MAX_REPETITIONS config)%Z ->
  stored (normalized trim e) c <> Some (-1)%Z ->
  fst (duplicate_test trim e config c)
  = ((Z.of_nat (List.length (normalized trim e))
        >? MIN_DUPLCHECK_SIZE config)%Z
     && (count_of (normalized trim e) c >? MAX_REPETITIONS config)%Z)
  /\ stored (normalized trim e) (snd (duplicate_test trim e config c))
     = Some (count_of (normalized trim e) c + 1)%Z.
Proof.
  intros Hm Hne.
  destruct (Z.gtb_spec (Z.of_nat (List.length (normalized trim e)))
              (MIN_DUPLCHECK_SIZE config)) as [Hl|Hs].
  - destruct (@duplicate_test_step trim config e c) as [Hr Hst];
      [lia | exact Hm | exact Hne |].
    now rewrite Hr, Hst.
  - rewrite duplicate_test_short by exact Hs. simpl. split; [reflexivity|].
    rewrite put_in_cache_stored by exact Hne. unfold count_of.
    now destruct (stored (normalized trim e) c).
Qed.

(** X2: for a threshold [MAX_REPETITIONS >= 0] and successive blocks of
    one and the same text, of any length: the [i]-th call leaves the count
    at the count before the first call plus [i], and answers [True]
    exactly when the text is longer than the minimum size and the count
    before the call, the count at the start plus [i - 1], is above the
    threshold. *)
Theorem X2_stream_of_one_text trim config k blocks : forall c,
  (0 <= MAX_REPETITIONS config)%Z ->
  Forall (fun e => normalized trim e = k) blocks ->
  counts_nonneg c ->
  fst (detect_all trim blocks config c)
  = map (fun i =>
           ((Z.of_nat (List.length k) >? MIN_DUPLCHECK_SIZE config)%Z
            && (count_of k c + Z.of_nat i - 1 >? MAX_REPETITIONS config)%Z,
            Some (count_of k c + Z.of_nat i)%Z))
        (seq 1 (List.length blocks)).
Proof.
  induction blocks as [|e rest IH]; intros c Hm Hall Hc; [reflexivity|].
  inversion Hall as [|? ? He Hrest]; subst.
  assert (Hne : stored (normalized trim e) c <> Some (-1)%Z).
  { intros Hbad. pose proof (@counts_nonneg_stored _ _ _ Hc Hbad). lia. }
  destruct (@duplicate_test_step_any trim config e c Hm Hne) as [Hr Hs].
  rewrite detect_all_fst_cons, Hr, Hs.
  rewrite (IH _ Hm Hrest (duplicate_test_nonneg trim config e Hc)).
  assert (Hc1 : count_of (normalized trim e)
                  (snd (duplicate_test trim e config c))
                = (count_of (normalized trim e) c + 1)%Z)
    by (unfold count_of at 1; now rewrite Hs).
  cbn [List.length seq map]. rewrite Hc1.
  replace (count_of (normalized trim e) c + Z.of_nat 1 - 1)%Z
    with (count_of (normalized trim e) c) by lia.
  f_equal. rewrite <- (seq_shift (List.length rest) 1), map_map.
  apply map_ext. intros i.
  replace (count_of (normalized trim e) c + 1 + Z.of_nat i - 1)%Z
    with (count_of (normalized trim e) c + Z.of_nat (S i) - 1)%Z by lia.
  replace (count_of (normalized trim e) c + 1 + Z.of_nat i)%Z
    with (count_of (normalized trim e) c + Z.of_nat (S i))%Z by lia.
  reflexivity.
Qed.

Lemma X2_stream_of_one_text_witness :
  fst (detect_all strip [block "Menu"; block " Menu"; block "Menu "]
         (mkConfig 3 8) seen_cache)
  = [(false, Some 8%Z); (false, Some 9%Z); (true, Some 10%Z)].
Proof.
  apply (@X2_stream_of_one_text strip (mkConfig 3 8) (py "Menu")
           [block "Menu"; block " Menu"; block "Menu "] seen_cache).
  - vm_compute. discriminate.
  - repeat constructor.
  - repeat constructor; vm_compute; discriminate.
Defined.

Lemma flagged_stream trim config k blocks : forall c n,
  stored k c = Some n ->
  (n > MAX_REPETITIONS config)%Z ->
  (Z.of_nat (List.length k) > MIN_DUPLCHECK_SIZE config)%Z ->
  Forall (fun e => normalized trim e = k) blocks ->
  Forall (fun r => fst r = true) (fst (detect_all trim blocks config c)).
Proof.
  induction blocks as [|e rest IH]; intros c n Hs Hn Hl Hall;
    [constructor|].
  inversion Hall as [|? ? He Hrest]; subst.
  rewrite detect_all_fst_cons.
  assert (Hd : duplicate_test trim e config c
               = (true, snd (LRU_put (normalized trim e) (n + 1)%Z
                               (snd (LRU_get (normalized trim e) c))))).
  { rewrite duplicate_test_long by exact Hl. cbv zeta.
    rewrite LRU_get_value, Hs.
    destruct (Z.gtb_spec n (MAX_REPETITIONS config)); [reflexivity | lia]. }
  rewrite Hd. constructor; [reflexivity|]. cbn [snd].
  apply (IH _ (n + 1)%Z); auto; [apply LRU_put_stored | lia].
Qed.

(** X3: a text that has been answered [True] is answered [True] at every
    call that follows on the same text: the count goes on rising and no
    call resets it. *)
Theorem X3_flagged_stays_flagged trim config e blocks c :
  fst (duplicate_test trim e config c) = true ->
  Forall (fun e' => normalized trim e' = normalized trim e) blocks ->
  Forall (fun r => fst r = true)
    (fst (detect_all trim blocks config
            (snd (duplicate_test trim e config c)))).
Proof.
  intros Ht Hall.
  destruct (Z.le_gt_cases (Z.of_nat (List.length (normalized trim e)))
              (MIN_DUPLCHECK_SIZE config)) as [Hs|Hl].
  - rewrite duplicate_test_short in Ht by exact Hs. discriminate.
  - rewrite duplicate_test_long in Ht |- * by lia. cbv zeta in Ht |- *.
    destruct (Z.gtb_spec (fst (LRU_get (normalized trim e) c))
                (MAX_REPETITIONS config)) as [Hv|Hv]; [|discriminate].
    cbn [snd].
    apply (@flagged_stream trim config (normalized trim e) blocks _
             (fst (LRU_get (normalized trim e) c) + 1)%Z);
      [apply LRU_put_stored | lia | lia | exact Hall].
Qed.

Lemma X3_flagged_stays_flagged_witness :
  Forall (fun r => fst r = true)
    (fst (detect_all strip [block "Menu !"; block "Menu !"] (mkConfig 3 0)
            (snd (duplicate_test strip (block "Menu !") (mkConfig 3 0)
                    (mkLRU 2 [(py "Menu !", 1%Z)]))))).
Proof.
  apply (@X3_flagged_stays_flagged strip (mkConfig 3 0) (block "Menu !")
           [block "Menu !"; block "Menu !"] (mkLRU 2 [(py "Menu !", 1%Z)])).
  - reflexivity.
  - repeat constructor.
Defined.

(** X4: with a threshold below [-1] the value [-1] of a miss is already
    above the threshold: every block longer than the minimum size is
    answered [True], also a text never seen, which is then stored with
    the count 0. *)
Theorem X4_threshold_below_miss_value trim config e c :
  (MAX_REPETITIONS config < -1)%Z ->
  (Z.of_nat (List.length (normalized trim e)) > MIN_DUPLCHECK_SIZE config)%Z ->
  counts_nonneg c ->
  fst (duplicate_test trim e config c) = true
  /\ (stored (normalized trim e) c = None ->
      stored (normalized trim e) (snd (duplicate_test trim e config c))
      = Some 0%Z).
Proof.
  intros Hm Hl Hc. rewrite duplicate_test_long by exact Hl. cbv zeta.
  destruct (@LRU_get_nonneg (normalized trim e) c Hc) as [_ Hv].
  destruct (Z.gtb_spec (fst (LRU_get (normalized trim e) c))
              (MAX_REPETITIONS config)) as [_|Hle]; [|lia].
  split; [reflexivity|]. intros Hnone. cbn [snd].
  rewrite LRU_put_stored, LRU_get_value, Hnone. reflexivity.
Qed.

Lemma X4_threshold_below_miss_value_witness :
  fst (duplicate_test strip (block "Never seen before") (mkConfig 5 (-2))
         seen_cache) = true.
Proof.
  apply (@X4_threshold_below_miss_value strip (mkConfig 5 (-2))
           (block "Never seen before") seen_cache).
  - reflexivity.
  - reflexivity.
  - repeat constructor; vm_compute; discriminate.
Defined.

Lemma LRU_put_head k v c :
  hd_error (entries (snd (LRU_put k v c))) = Some (k, v).
Proof.
  unfold LRU_put. destruct (lookup k (entries c)); [reflexivity|].
  now destruct (Nat.leb _ _).
Qed.

Lemma put_in_cache_head k c :
  exists v, hd_error (entries (snd (put_in_cache k c))) = Some (k, v).
Proof.
  unfold put_in_cache, bind. destruct (LRU_get k c) as [v c1].
  destruct (negb (v =? -1)%Z); eexists; apply LRU_put_head.
Qed.

(** X5: whatever it answers, a call leaves the text of the block in the
    cache, as the most recently used entry. *)
Theorem X5_every_call_records trim config e c :
  exists v,
    hd_error (entries (snd (duplicate_test trim e config c)))
    = Some (normalized trim e, v)
    /\ stored (normalized trim e) (snd (duplicate_test trim e config c))
       = Some v.
Proof.
  assert (H : exists v,
             hd_error (entries (snd (duplicate_test trim e config c)))
             = Some (normalized trim e, v)).
  { destruct (Z.le_gt_cases (Z.of_nat (List.length (normalized trim e)))
                (MIN_DUPLCHECK_SIZE config)) as [Hs|Hl].
    - rewrite duplicate_test_short by exact Hs. apply put_in_cache_head.
    - rewrite duplicate_test_long by lia. cbv zeta.
      destruct (_ >? _)%Z; cbn [snd];
        [eexists; apply LRU_put_head | apply put_in_cache_head]. }
  destruct H as [v Hv]. exists v. split; [exact Hv|].
  unfold stored.
  destruct (entries (snd (duplicate_test trim e config c))) as [|[k' v'] l];
    [discriminate|].
  injection Hv as -> ->. simpl. now rewrite str_eqb_refl.
Qed.

(** ** The language gate with a detector *)

(** X6: the gate rejects exactly when a detector is installed, a target
    language is given, and the language detected on the sample differs
    from the target; the sample is the comments when they are strictly
    longer than the text, and the text otherwise, also at equal length. *)
Theorem X6_language_rejection cld3 temp_text temp_comments target docmeta :
  fst (language_filter cld3 temp_text temp_comments target docmeta) = true
  <->
  exists get_language t,
    cld3 = Some get_language /\ target = Some t
    /\ ((List.length temp_text < List.length temp_comments
         /\ language (get_language temp_comments) <> t)
        \/ (List.length temp_comments <= List.length temp_text
            /\ language (get_language temp_text) <> t)).
Proof.
  unfold language_filter. split.
  - destruct target as [t|]; [|discriminate].
    destruct cld3 as [g|]; [|discriminate].
    intros H. exists g, t. repeat split.
    destruct (Nat.ltb_spec (List.length temp_text)
                (List.length temp_comments)) as [Hlt|Hge].
    + left. split; [exact Hlt|]. intros E.
      apply str_eqb_eq in E. rewrite E in H. discriminate.
    + right. split; [exact Hge|]. intros E.
      apply str_eqb_eq in E. rewrite E in H. discriminate.
  - intros (g & t & -> & -> & [[Hlt Hne]|[Hge Hne]]).
    + apply Nat.ltb_lt in Hlt. rewrite Hlt.
      now rewrite (str_eqb_neq Hne).
    + destruct (Nat.ltb_spec (List.length temp_text)
                  (List.length temp_comments)); [lia|].
      now rewrite (str_eqb_neq Hne).
Qed.

(** X7: a call of the gate logs at most one record, and only warnings.
    A rejection always comes with one warning that names the document's
    id and url; nothing is logged exactly when no target language is
    given or a detector is installed and the block passes. *)
Theorem X7_language_log cld3 temp_text temp_comments target docmeta :
  let r := language_filter cld3 temp_text temp_comments target docmeta in
  List.length (snd r) <= 1
  /\ Forall (fun l => level l = WARNING) (snd r)
  /\ (fst r = true ->
      exists l, snd r = [l]
                /\ In (ArgStr (doc_id docmeta)) (args l)
                /\ In (ArgStr (doc_url docmeta)) (args l))
  /\ (snd r = [] <->
      target = None \/ (LANGID_FLAG cld3 = true /\ fst r = false)).
Proof.
  unfold language_filter, LANGID_FLAG.
  destruct target as [t|]; [destruct cld3 as [g|]|]; cbv zeta.
  - destruct (negb (str_eqb _ t)); cbn [fst snd LOGGER_warning List.length].
    + split; [lia|]. split; [now repeat constructor|]. split.
      * intros _. eexists. split; [reflexivity|]. cbn [args In]. auto.
      * split; [discriminate|]. intros [H|[_ H]]; discriminate.
    + split; [lia|]. split; [constructor|]. split; [discriminate|].
      split; auto.
  - cbn [fst snd LOGGER_warning List.length].
    split; [lia|]. split; [now repeat constructor|]. split; [discriminate|].
    split; [discriminate|]. intros [H|[H _]]; discriminate.
  - cbn [fst snd List.length].
    split; [lia|]. split; [constructor|]. split; [discriminate|].
    split; auto.
Qed.

(** ** The structural text filter on any block *)

Lemma textfilter_usable_iff e s :
  effective_text e = Some s ->
  text_chars_test (Some s) = true ->
  (textfilter e = true <->
   exists line, In line (splitlines s) /\ label_line line).
Proof.
  intros He Hu.
  rewrite (textfilter_usable e He Hu), any_line_matches_iff. split.
  - intros (line & Hin & Hm). exists line. split; [exact Hin|].
    apply RE_FILTER_matches_line; [|exact Hm].
    now apply splitlines_no_break with s.
  - intros (line & Hin & Hl). exists line. split; [exact Hin|].
    apply RE_FILTER_matches_line; [|exact Hl].
    now apply splitlines_no_break with s.
Qed.

(** X8: [textfilter] answers [True] for exactly two kinds of block: those
    whose effective text is missing, empty or whitespace only, and those
    with a line made of non-word characters followed by a label that ends
    the line. *)
Theorem X8_textfilter_verdict e :
  textfilter e = true <->
  text_chars_test (effective_text e) = false
  \/ exists s line,
       effective_text e = Some s /\ In line (splitlines s)
       /\ label_line line.
Proof.
  destruct (text_chars_test (effective_text e)) eqn:Hu.
  - destruct (effective_text e) as [s|] eqn:He; [|discriminate].
    rewrite (textfilter_usable_iff e He Hu). split.
    + intros (line & Hin & Hl). right. now exists s, line.
    + intros [H|(s' & line & [= <-] & Hin & Hl)]; [discriminate|].
      now exists line.
  - split; [now left|]. intros _. now apply textfilter_no_usable_text.
Qed.

(** X9: the filter reads the direct text when there is one and the tail
    only when there is none; the children are never read.  A direct text
    that is empty or blank hides the tail: the block is rejected whatever
    the tail holds. *)
Theorem X9_text_hides_tail :
  (forall t tl ch,
     textfilter (mkElement (Some t) tl ch)
     = textfilter (mkElement (Some t) None []))
  /\ (forall tl ch,
        textfilter (mkElement None tl ch) = textfilter (mkElement tl None []))
  /\ (forall t tl ch,
        forallb is_space t = true ->
        textfilter (mkElement (Some t) tl ch) = true).
Proof.
  split; [|split].
  - intros t tl ch. unfold textfilter, effective_text. simpl.
    now destruct tl.
  - intros tl ch. unfold textfilter, effective_text. simpl.
    now destruct tl.
  - intros t tl ch Ht. apply textfilter_no_usable_text.
    replace (effective_text (mkElement (Some t) tl ch)) with (Some t)
      by (unfold effective_text; simpl; now destruct tl).
    simpl. destruct t as [|c t]; [reflexivity|].
    cbn [List.length Nat.eqb isspace orb]. now rewrite Ht.
Qed.

Lemma X9_text_hides_tail_witness :
  textfilter (mkElement (Some (py "  ")) (Some (py "The real content"))
                [block "More content"]) = true.
Proof.
  apply (proj2 (proj2 X9_text_hides_tail)). reflexivity.
Defined.

(** ** Letter case and the structural text filter *)

Ltac by_cases_on_char c :=
  destruct c as [[] [] [] [] [] [] [] []]; first [reflexivity | discriminate].

Lemma lower_char_idem c : lower_char (lower_char c) = lower_char c.
Proof. by_cases_on_char c. Qed.

Lemma lower_idem s : lower (lower s) = lower s.
Proof.
  unfold lower. rewrite map_map. apply map_ext. apply lower_char_idem.
Qed.

Lemma lower_app a b : lower (a ++ b) = lower a ++ lower b.
Proof. apply map_app. Qed.

Lemma textfilter_of_text e s :
  effective_text e = Some s ->
  textfilter e
  = if Bool.eqb (text_chars_test (Some s)) false then true
    else any_line_matches (splitlines s).
Proof. intros He. unfold textfilter. now rewrite He. Qed.

(** A change of characters that keeps what the filter looks at: the
    classes of whitespace, line boundaries and word characters, and the
    letter up to case. *)
Section CharMap.

Variable f : ascii -> ascii.
Hypothesis f_space : forall c, is_space (f c) = is_space c.
Hypothesis f_break : forall c, is_linebreak (f c) = is_linebreak c.
Hypothesis f_CR : forall c, Ascii.eqb (f c) CR = Ascii.eqb c CR.
Hypothesis f_LF : forall c, Ascii.eqb (f c) LF = Ascii.eqb c LF.
Hypothesis f_word : forall c, is_word (f c) = is_word c.
Hypothesis f_fold : forall c, lower_char (f c) = lower_char c.

Lemma splitlines_aux_map n : forall s cur,
  List.length s <= n ->
  splitlines_aux (map f cur) (map f s)
  = map (map f) (splitlines_aux cur s).
Proof.
  assert (Hend : forall cur,
            match map f cur with [] => [] | _ :: _ => [rev (map f cur)] end
            = map (map f) match cur with [] => [] | _ :: _ => [rev cur] end).
  { intros [|x cur]; [reflexivity|]. cbn [map]. f_equal.
    apply (eq_sym (map_rev f (x :: cur))). }
  induction n as [|n IH]; intros s cur Hn.
  - destruct s; [|simpl in Hn; lia]. apply Hend.
  - destruct s as [|c s]; [apply Hend|].
    cbn [map splitlines_aux]. rewrite f_break. simpl in Hn.
    destruct (is_linebreak c).
    + destruct s as [|d s].
      * cbn [map]. now rewrite map_rev.
      * cbn [map]. rewrite f_CR, f_LF.
        destruct (Ascii.eqb c CR && Ascii.eqb d LF); cbn [map];
          rewrite map_rev; f_equal.
        -- apply (IH s []). simpl in Hn. lia.
        -- apply (IH (d :: s) []). lia.
    + apply (IH s (c :: cur)). lia.
Qed.

Lemma splitlines_map s : splitlines (map f s) = map (map f) (splitlines s).
Proof. apply (@splitlines_aux_map (List.length s) s []). lia. Qed.

Lemma forallb_space_map s : forallb is_space (map f s) = forallb is_space s.
Proof.
  induction s as [|c s IH]; [reflexivity|].
  cbn [map forallb]. now rewrite f_space, IH.
Qed.

Lemma text_chars_test_map s :
  text_chars_test (Some (map f s)) = text_chars_test (Some s).
Proof.
  unfold text_chars_test. rewrite length_map.
  destruct s as [|c s]; [reflexivity|].
  change (isspace (map f (c :: s)))
    with (forallb is_space (map f (c :: s))).
  now rewrite forallb_space_map.
Qed.

Lemma in_class_map k c : in_class k (f c) = in_class k c.
Proof. destruct k; simpl; now rewrite f_word. Qed.

Lemma forallb_in_class_map k s :
  forallb (in_class k) (map f s) = forallb (in_class k) s.
Proof.
  induction s as [|c s IH]; [reflexivity|].
  cbn [map forallb]. now rewrite in_class_map, IH.
Qed.

Lemma map_f_LF d : f d = LF -> d = LF.
Proof.
  intros H. apply Ascii.eqb_eq. rewrite <- f_LF. now apply Ascii.eqb_eq.
Qed.

Lemma f_of_LF : f LF = LF.
Proof. apply Ascii.eqb_eq. rewrite f_LF. apply Ascii.eqb_refl. Qed.

(** A pattern compiled with [re.IGNORECASE] matches the changed text
    exactly when it matches the text. *)
Lemma denote_map r : forall s1 s2,
  denote true r (map f s1) (map f s2) <-> denote true r s1 s2.
Proof.
  induction r as [|c|cl|r1 IH1 r2 IH2|r1 IH1 r2 IH2|r1 IH1|n cl|];
    intros s1 s2; cbn [denote].
  - split; [intros H; now apply map_eq_nil in H | now intros ->].
  - unfold chr_matches. split.
    + intros (d & E & Hd). destruct s1 as [|d' [|? ?]]; try discriminate.
      injection E as <-. exists d'. rewrite f_fold in Hd. auto.
    + intros (d & -> & Hd). exists (f d). rewrite f_fold. auto.
  - split.
    + intros (d & E & Hd). destruct s1 as [|d' [|? ?]]; try discriminate.
      injection E as <-. exists d'. rewrite in_class_map in Hd. auto.
    + intros (d & -> & Hd). exists (f d). rewrite in_class_map. auto.
  - split.
    + intros (a & b & E & Ha & Hb).
      apply map_eq_app in E as (a' & b' & -> & <- & <-).
      rewrite <- map_app in Ha.
      apply (proj1 (IH1 _ _)) in Ha. apply (proj1 (IH2 _ _)) in Hb.
      now exists a', b'.
    + intros (a & b & -> & Ha & Hb). exists (map f a), (map f b).
      split; [apply map_app|]. rewrite <- map_app.
      split; [now apply (proj2 (IH1 _ _)) | now apply (proj2 (IH2 _ _))].
  - now rewrite IH1, IH2.
  - rewrite IH1. split; intros [H|H]; auto.
    + right. now apply map_eq_nil in H.
    + right. now subst.
  - now rewrite length_map, forallb_in_class_map.
  - split.
    + intros [H1 [H2|H2]].
      * apply map_eq_nil in H1, H2. auto.
      * apply map_eq_nil in H1. split; [exact H1|]. right.
        destruct s2 as [|d [|? ?]]; try discriminate.
        injection H2 as H2. now rewrite (@map_f_LF d H2).
    + intros [-> [->| ->]]; auto. split; [reflexivity|]. right.
      cbn [map]. now rewrite f_of_LF.
Qed.

Lemma re_match_map p s :
  ignorecase p = true ->
  matched (re_match p (map f s)) = matched (re_match p s).
Proof.
  intros Hic. apply eq_true_iff_eq. rewrite !re_match_matched, Hic. split.
  - intros (s1 & s2 & E & Hd).
    apply map_eq_app in E as (a & b & -> & <- & <-).
    exists a, b. split; [reflexivity|]. now apply denote_map.
  - intros (s1 & s2 & -> & Hd). exists (map f s1), (map f s2).
    split; [apply map_app | now apply denote_map].
Qed.

Lemma any_line_matches_map lines :
  any_line_matches (map (map f) lines) = any_line_matches lines.
Proof.
  induction lines as [|l lines IH]; [reflexivity|].
  cbn [map any_line_matches].
  now rewrite (re_match_map RE_FILTER l eq_refl), IH.
Qed.

(** The verdict on a text is the verdict on the changed text. *)
Lemma textfilter_map e s :
  effective_text e = Some s ->
  textfilter e = textfilter (mkElement (Some (map f s)) None []).
Proof.
  intros He.
  rewrite (textfilter_of_text e He).
  rewrite (@textfilter_of_text (mkElement (Some (map f s)) None [])
             (map f s) eq_refl).
  now rewrite text_chars_test_map, splitlines_map, any_line_matches_map.
Qed.

End CharMap.

Lemma ascii_lower_space c : is_space (ascii_lower_char c) = is_space c.
Proof. by_cases_on_char c. Qed.

Lemma ascii_lower_break c :
  is_linebreak (ascii_lower_char c) = is_linebreak c.
Proof. by_cases_on_char c. Qed.

Lemma ascii_lower_CR c : Ascii.eqb (ascii_lower_char c) CR = Ascii.eqb c CR.
Proof. by_cases_on_char c. Qed.

Lemma ascii_lower_LF c : Ascii.eqb (ascii_lower_char c) LF = Ascii.eqb c LF.
Proof. by_cases_on_char c. Qed.

Lemma ascii_lower_word c : is_word (ascii_lower_char c) = is_word c.
Proof. by_cases_on_char c. Qed.

Lemma ascii_lower_fold c : lower_char (ascii_lower_char c) = lower_char c.
Proof. by_cases_on_char c. Qed.

(** X10: the verdict of the filter does not depend on the case of the
    letters A to Z: two blocks whose effective texts differ only in the
    case of these letters get the same answer. *)
Theorem X10_textfilter_ignores_case e1 e2 s1 s2 :
  effective_text e1 = Some s1 ->
  effective_text e2 = Some s2 ->
  ascii_lower s1 = ascii_lower s2 ->
  textfilter e1 = textfilter e2.
Proof.
  intros H1 H2 E.
  rewrite (@textfilter_map ascii_lower_char ascii_lower_space
             ascii_lower_break ascii_lower_CR ascii_lower_LF
             ascii_lower_word ascii_lower_fold e1 s1 H1).
  rewrite (@textfilter_map ascii_lower_char ascii_lower_space
             ascii_lower_break ascii_lower_CR ascii_lower_LF
             ascii_lower_word ascii_lower_fold e2 s2 H2).
  fold (ascii_lower s1). fold (ascii_lower s2). now rewrite E.
Qed.

Lemma X10_textfilter_ignores_case_witness :
  textfilter (block "Share it: >> WHATSAPP")
  = textfilter (mkElement None (Some (py "share IT: >> WhatsApp")) []).
Proof.
  apply (@X10_textfilter_ignores_case
           (block "Share it: >> WHATSAPP")
           (mkElement None (Some (py "share IT: >> WhatsApp")) [])
           (py "Share it: >> WHATSAPP") (py "share IT: >> WhatsApp"));
    reflexivity.
Defined.

(** ** What may follow a label *)

Lemma last_of_app (A : Type) (a b : list A) d :
  b <> [] -> last (a ++ b) d = last b d.
Proof.
  intros Hb. induction a as [|x a IH]; [reflexivity|].
  simpl. destruct (a ++ b) eqn:E; [|exact IH].
  apply app_eq_nil in E as [_ E]. contradiction.
Qed.

Lemma last_default (A : Type) (l : list A) d d' :
  l <> [] -> last l d = last l d'.
Proof.
  induction l as [|x l IH]; [contradiction|]. intros _.
  destruct l as [|y l]; [reflexivity|]. apply IH. discriminate.
Qed.

(** Every label ends with a word character. *)
Lemma labels_end_with_word :
  Forall (fun l => lower (py l) <> []
                   /\ is_word (last (lower (py l)) " "%char) = true) LABELS.
Proof. repeat constructor; discriminate. Qed.

Lemma is_label_last lab d :
  is_label lab = true -> lab <> [] /\ is_word (last lab d) = true.
Proof.
  unfold is_label. intros H. apply existsb_exists in H as (l & Hin & E).
  apply str_eqb_eq in E.
  pose proof labels_end_with_word as Hall. rewrite Forall_forall in Hall.
  destruct (Hall l Hin) as [Hne Hw]. rewrite <- E in Hne, Hw.
  assert (Hlab : lab <> []) by (intros ->; now apply Hne).
  split; [exact Hlab|].
  rewrite <- is_word_lower.
  rewrite (@last_default _ (lower lab) " "%char (lower_char d) Hne) in Hw.
  unfold lower in Hw. now rewrite last_map in Hw.
Qed.

(** X11: a label is found only at the very end of a line: a block with
    usable text whose lines all are empty or end with a non-word character
    (a full stop, a blank, a bracket) is never rejected, labels or not. *)
Theorem X11_label_must_end_line e s :
  effective_text e = Some s ->
  text_chars_test (Some s) = true ->
  (forall line, In line (splitlines s) ->
                line = [] \/ is_word (last line " "%char) = false) ->
  textfilter e = false.
Proof.
  intros He Hu Hlines. destruct (textfilter e) eqn:T; [|reflexivity].
  apply (textfilter_usable_iff e He Hu) in T
    as (line & Hin & pre & lab & -> & _ & Hlab).
  destruct (is_label_last lab " "%char Hlab) as [Hne Hw].
  destruct (Hlines _ Hin) as [Hnil|Hlast].
  - apply app_eq_nil in Hnil as [_ Hnil]. contradiction.
  - rewrite last_of_app in Hlast by exact Hne. congruence.
Qed.

Lemma X11_label_must_end_line_witness :
  textfilter (block "Follow us on Facebook.") = false
  /\ textfilter (block "Facebook ") = false.
Proof.
  split.
  - apply (@X11_label_must_end_line (block "Follow us on Facebook.")
             (py "Follow us on Facebook.") eq_refl eq_refl).
    intros line [<-|[]]. right. reflexivity.
  - apply (@X11_label_must_end_line (block "Facebook ")
             (py "Facebook ") eq_refl eq_refl).
    intros line [<-|[]]. right. reflexivity.
Defined.

(** ** What the fingerprint depends on *)

(** X12: when the lowercased texts are made of words and separators, the
    fingerprint depends only on their words of at least 5 characters, in
    order: the shorter words and the separators of the lowercased text do
    not count. *)
Theorem X12_fingerprint_long_words s1 s2 w1 rest1 w2 rest2 :
  lower s1 = weave w1 rest1 -> lower s2 = weave w2 rest2 ->
  is_run w1 -> well_spaced rest1 ->
  is_run w2 -> well_spaced rest2 ->
  filter long_enough (w1 :: map snd rest1)
  = filter long_enough (w2 :: map snd rest2) ->
  content_fingerprint s1 = content_fingerprint s2.
Proof.
  intros E1 E2 Hw1 Hr1 Hw2 Hr2 E. rewrite !content_fingerprint_spec.
  unfold fingerprint_spec.
  rewrite (qualifying_tokens_lowered s1 E1 Hw1 Hr1).
  rewrite (qualifying_tokens_lowered s2 E2 Hw2 Hr2).
  now rewrite E.
Qed.

Lemma X12_fingerprint_long_words_witness :
  content_fingerprint (py "Hello to the World")
  = content_fingerprint (py "a: HELLO, WORLD - of it").
Proof.
  apply (@X12_fingerprint_long_words
           (py "Hello to the World") (py "a: HELLO, WORLD - of it")
           (py "hello")
           [(py " ", py "to"); (py " ", py "the"); (py " ", py "world")]
           (py "a")
           [(py ": ", py "hello"); (py ", ", py "world");
            (py " - ", py "of"); (py " ", py "it")]).
  - reflexivity.
  - reflexivity.
  - split; [discriminate | reflexivity].
  - repeat constructor; discriminate.
  - split; [discriminate | reflexivity].
  - repeat constructor; discriminate.
  - reflexivity.
Defined.

(** Every run that [word_runs] reports is a maximal run of word
    characters of the text. *)
Lemma word_runs_aux_maximal s : forall cur r,
  (forall c, In c cur -> is_word c = true) ->
  In r (word_runs_aux cur s) ->
  exists a b,
    rev cur ++ s = a ++ r ++ b /\ r <> [] /\ forallb is_word r = true
    /\ (a = [] \/ exists a' c, a = a' ++ [c] /\ is_word c = false)
    /\ (b = [] \/ exists c b', b = c :: b' /\ is_word c = false).
Proof.
  assert (Hrev : forall cur, (forall c, In c cur -> is_word c = true) ->
                             forallb is_word (rev cur) = true).
  { intros cur H. apply forallb_forall. intros c Hc. apply H.
    now apply in_rev. }
  assert (Hne : forall (x : ascii) cur, rev (x :: cur) <> []).
  { intros x cur E. apply (f_equal (@List.length ascii)) in E.
    rewrite length_rev in E. discriminate. }
  induction s as [|c s IH]; intros cur r Hcur Hin; simpl in Hin.
  - destruct cur as [|x cur]; [contradiction|].
    destruct Hin as [<-|[]]. exists [], []. rewrite !app_nil_r.
    repeat split; auto.
  - destruct (is_word c) eqn:Hc.
    + destruct (IH (c :: cur) r) as (a & b & E & Hr); auto.
      * intros d [<-|Hd]; auto.
      * exists a, b. split; [|exact Hr].
        rewrite <- E. simpl. now rewrite <- app_assoc.
    + assert (Hleft : forall p a,
                (a = [] \/ exists a' c', a = a' ++ [c'] /\ is_word c' = false)
                -> exists a' c', p ++ c :: a = a' ++ [c']
                                 /\ is_word c' = false).
      { intros p a [->|(a' & c' & -> & Hc')].
        - now exists p, c.
        - exists (p ++ c :: a'), c'. now rewrite <- app_assoc. }
      destruct cur as [|x cur].
      * destruct (IH [] r) as (a & b & E & Hr1 & Hr2 & Ha & Hb); auto.
        exists (c :: a), b. simpl in E |- *. rewrite E.
        repeat split; auto. right. apply (Hleft [] a Ha).
      * destruct Hin as [<-|Hin].
        -- exists [], (c :: s). repeat split; auto. right. eauto.
        -- destruct (IH [] r) as (a & b & E & Hr1 & Hr2 & Ha & Hb); auto.
           exists (rev (x :: cur) ++ c :: a), b. simpl in E.
           rewrite E, <- app_assoc. repeat split; auto.
Qed.

Lemma app_eq_length (A : Type) (a a' x x' : list A) :
  List.length a = List.length a' -> a ++ x = a' ++ x' -> a = a' /\ x = x'.
Proof.
  revert a'. induction a as [|y a IH]; intros [|y' a'] Hl E;
    try discriminate; [now split|].
  injection E as -> E. injection Hl as Hl.
  destruct (IH a' Hl E) as [-> ->]. now split.
Qed.

(** X13: every token that [re.findall] hands to the fingerprint is a
    maximal run of word characters of the lowercased text, at least 5
    characters long and itself lowercase: it is preceded by nothing or by
    a non-word character, and followed by nothing or by a non-word
    character. *)
Theorem X13_tokens_are_maximal_runs s r :
  In r (re_findall RE_TOKEN (lower s)) ->
  exists a b,
    lower s = a ++ r ++ b
    /\ 5 <= List.length r /\ forallb is_word r = true /\ lower r = r
    /\ (a = [] \/ exists a' c, a = a' ++ [c] /\ is_word c = false)
    /\ (b = [] \/ exists c b', b = c :: b' /\ is_word c = false).
Proof.
  rewrite re_findall_tokens. unfold qualifying_tokens.
  intros Hin. apply filter_In in Hin as [Hin Hlen].
  apply Nat.leb_le in Hlen.
  apply (@word_runs_aux_maximal (lower s) [] r) in Hin;
    [|intros c []].
  destruct Hin as (a & b & E & _ & Hw & Ha & Hb). simpl in E.
  exists a, b. repeat split; auto.
  pose proof (lower_idem s) as Hi. rewrite E in Hi at 1.
  rewrite E, !lower_app in Hi.
  apply app_eq_length in Hi as [_ Hi];
    [|unfold lower; now rewrite length_map].
  apply app_eq_length in Hi as [Hi _];
    [exact Hi | unfold lower; now rewrite length_map].
Qed.

Lemma X13_tokens_are_maximal_runs_witness :
  exists a b,
    lower (py "Say HELLO, world") = a ++ py "hello" ++ b
    /\ 5 <= List.length (py "hello")
    /\ forallb is_word (py "hello") = true
    /\ lower (py "hello") = py "hello"
    /\ (a = [] \/ exists a' c, a = a' ++ [c] /\ is_word c = false)
    /\ (b = [] \/ exists c b', b = c :: b' /\ is_word c = false).
Proof.
  apply (@X13_tokens_are_maximal_runs (py "Say HELLO, world") (py "hello")).
  vm_compute. left. reflexivity.
Defined.

(** ** The bytes that are hashed *)

Lemma utf8_first_char c x : utf8_first (utf8_char c ++ x) = Some (c, x).
Proof. destruct c as [[] [] [] [] [] [] [] []]; reflexivity. Qed.

(** [str.encode] maps different texts to different bytes. *)
Lemma encode_inj a : forall b, encode a = encode b -> a = b.
Proof.
  induction a as [|c a IH]; intros [|d b] E.
  - reflexivity.
  - apply (f_equal utf8_first) in E. cbn [encode flat_map] in E.
    rewrite utf8_first_char in E. discriminate.
  - apply (f_equal utf8_first) in E. cbn [encode flat_map] in E.
    rewrite utf8_first_char in E. discriminate.
  - apply (f_equal utf8_first) in E. cbn [encode flat_map] in E.
    rewrite !utf8_first_char in E. injection E as -> E.
    f_equal. now apply IH.
Qed.

Lemma join_cons sep w l :
  join sep (w :: l)
  = w ++ match l with [] => [] | _ :: _ => sep ++ join sep l end.
Proof. destruct l; simpl; [now rewrite app_nil_r | reflexivity]. Qed.

Lemma span_word_run w t :
  forallb is_word w = true ->
  (t = [] \/ exists c t', t = c :: t' /\ is_word c = false) ->
  span_word (w ++ t) = (w, t).
Proof.
  intros Hw Ht. induction w as [|c w IH]; simpl in *.
  - destruct Ht as [->|(c & t' & -> & Hc)]; [reflexivity|].
    simpl. now rewrite Hc.
  - apply andb_true_iff in Hw as [Hc Hw]. rewrite Hc, (IH Hw). reflexivity.
Qed.

(** Joining words with single spaces loses nothing: the joined text gives
    the words back. *)
Lemma join_words_inj l1 : forall l2,
  Forall is_run l1 -> Forall is_run l2 ->
  join (py " ") l1 = join (py " ") l2 -> l1 = l2.
Proof.
  assert (Htail : forall l : list pystr,
            let t := match l with
                     | [] => []
                     | _ :: _ => py " " ++ join (py " ") l
                     end in
            t = [] \/ exists c t', t = c :: t' /\ is_word c = false).
  { intros [|w l]; [now left|]. right. eexists. eexists.
    split; [reflexivity|]. reflexivity. }
  induction l1 as [|w1 r1 IH]; intros [|w2 r2] H1 H2 E.
  - reflexivity.
  - inversion H2 as [|? ? [Hne _] _]; subst. rewrite join_cons in E.
    simpl in E. symmetry in E. apply app_eq_nil in E as [E _].
    contradiction.
  - inversion H1 as [|? ? [Hne _] _]; subst. rewrite join_cons in E.
    simpl in E. apply app_eq_nil in E as [E _]. contradiction.
  - inversion H1 as [|? ? [_ Hw1] Hr1]; subst.
    inversion H2 as [|? ? [_ Hw2] Hr2]; subst.
    rewrite !join_cons in E. apply (f_equal span_word) in E.
    rewrite (span_word_run _ Hw1 (Htail r1)) in E.
    rewrite (span_word_run _ Hw2 (Htail r2)) in E.
    injection E as -> E. f_equal.
    destruct r1 as [|x1 r1], r2 as [|x2 r2]; try discriminate;
      [reflexivity|].
    injection E as E. now apply IH.
Qed.

Lemma word_runs_are_runs s : Forall is_run (word_runs s).
Proof.
  apply Forall_forall. intros r Hin.
  apply (@word_runs_aux_maximal s [] r) in Hin; [|intros c []].
  destruct Hin as (a & b & _ & Hne & Hw & _). now split.
Qed.

Lemma tokens_are_runs s : Forall is_run (re_findall RE_TOKEN (lower s)).
Proof.
  rewrite re_findall_tokens. unfold qualifying_tokens.
  apply Forall_forall. intros r Hin. apply filter_In in Hin as [Hin _].
  pose proof (word_runs_are_runs (lower s)) as H.
  rewrite Forall_forall in H. now apply H.
Qed.

(** X14: the bytes handed to SHA-1 hold the whole sequence of tokens: two
    texts give the same bytes exactly when [re.findall] gives the same
    tokens for them.  Joining with spaces and encoding merge no two
    different sequences of tokens. *)
Theorem X14_hashed_bytes_hold_tokens s1 s2 :
  encode (join (py " ") (re_findall RE_TOKEN (lower s1)))
  = encode (join (py " ") (re_findall RE_TOKEN (lower s2)))
  <-> re_findall RE_TOKEN (lower s1) = re_findall RE_TOKEN (lower s2).
Proof.
  split; [|now intros ->].
  intros E. apply encode_inj in E.
  apply join_words_inj in E; [exact E | |]; apply tokens_are_runs.
Qed.

(** ** Counting one observation *)

(** X15: [put_in_cache] raises the count of the text by one and starts a
    text that is not stored at 1.  It tells a miss by the value [-1]: a
    stored count of [-1] would be taken for a miss and set to 1.  The
    count of any other text is left as it is, unless that text is
    evicted. *)
Theorem X15_put_in_cache_counts k c :
  stored k (snd (put_in_cache k c))
  = Some (match stored k c with
          | Some v => if (v =? -1)%Z then 1%Z else (v + 1)%Z
          | None => 1%Z
          end)
  /\ (forall k', k' <> k ->
        stored k' (snd (put_in_cache k c)) = stored k' c
        \/ stored k' (snd (put_in_cache k c)) = None).
Proof.
  split.
  - unfold put_in_cache, bind.
    pose proof (LRU_get_value k c) as Hv.
    destruct (LRU_get k c) as [v c1]. simpl in Hv. subst v.
    destruct (stored k c) as [v|]; simpl.
    + destruct (v =? -1)%Z; simpl; apply LRU_put_stored.
    + apply LRU_put_stored.
  - intros k' Hne. now apply put_in_cache_other.
Qed.

(** ** Usable text *)

(** X16: [text_chars_test] answers [True] exactly for the strings that
    hold at least one character that is not whitespace in the sense of
    [str.isspace]; it answers [False] for [None]. *)
Theorem X16_usable_text o :
  text_chars_test o = true <->
  exists s c, o = Some s /\ In c s /\ is_space c = false.
Proof.
  split.
  - destruct o as [s|]; [|discriminate]. simpl.
    destruct s as [|c s]; [discriminate|]. simpl.
    destruct (is_space c && forallb is_space s) eqn:E; [discriminate|].
    intros _. exists (c :: s).
    assert (H : forallb is_space (c :: s) = false) by exact E.
    assert (Hex : existsb (fun x => negb (is_space x)) (c :: s) = true).
    { clear E. induction (c :: s) as [|x l IH]; [discriminate|].
      simpl in H |- *. destruct (is_space x); simpl in *; auto. }
    apply existsb_exists in Hex as (x & Hin & Hx).
    exists x. repeat split; auto. now apply negb_true_iff.
  - intros (s & c & -> & Hin & Hc). simpl.
    destruct s as [|x s]; [contradiction|].
    cbn [List.length Nat.eqb orb isspace].
    assert (H : forallb is_space (x :: s) = false).
    { destruct (forallb is_space (x :: s)) eqn:E; [|reflexivity].
      rewrite forallb_forall in E. rewrite (E c Hin) in Hc. discriminate. }
    now rewrite H.
Qed.

(** ** Text around the tokens *)

Lemma word_runs_aux_nonword q :
  forallb non_word q = true -> word_runs_aux [] q = [].
Proof.
  induction q as [|c q IH]; [reflexivity|]. simpl.
  intros H. apply andb_true_iff in H as [Hc Hq].
  unfold non_word in Hc. apply negb_true_iff in Hc. rewrite Hc. now apply IH.
Qed.

Lemma word_runs_aux_app_nonword q s : forall cur,
  forallb non_word q = true ->
  word_runs_aux cur (s ++ q) = word_runs_aux cur s.
Proof.
  intros cur Hq. revert cur.
  induction s as [|c s IH]; intros cur.
  - simpl. destruct q as [|d q]; [reflexivity|].
    simpl in Hq |- *. apply andb_true_iff in Hq as [Hd Hq].
    unfold non_word in Hd. apply negb_true_iff in Hd.
    rewrite Hd, (word_runs_aux_nonword q Hq). now destruct cur.
  - simpl. destruct (is_word c); [apply IH|].
    destruct cur; now rewrite IH.
Qed.

(** X17: a text whose lowercased form is the lowercased form of another
    text with non-word characters (whitespace, punctuation) added before
    and after it has the fingerprint of that other text. *)
Theorem X17_fingerprint_ignores_margins s s' p q :
  lower s' = p ++ lower s ++ q ->
  forallb non_word p = true ->
  forallb non_word q = true ->
  content_fingerprint s' = content_fingerprint s.
Proof.
  intros E Hp Hq. rewrite !content_fingerprint_spec.
  unfold fingerprint_spec, qualifying_tokens.
  rewrite E. unfold word_runs.
  now rewrite word_runs_aux_sep, word_runs_aux_app_nonword.
Qed.

Lemma X17_fingerprint_ignores_margins_witness :
  content_fingerprint (py "  >> Hello World !! ")
  = content_fingerprint (py "HELLO world").
Proof.
  apply (@X17_fingerprint_ignores_margins
           (py "HELLO world") (py "  >> Hello World !! ")
           (py "  >> ") (py " !! ")); reflexivity.
Defined.
